(** * quipu-cms: the live transcription pipeline

    A shallow embedding of
    - [src/lib/pcm.ts] ([float32To16LEPCM]) and the inline sample conversion
      of [Recorder.vue] ([setupRealtimeProcessing]);
    - the transcript page's [handleTurnEvent] and [translate].

    JavaScript numbers are IEEE 754 binary64 values; they are modelled by
    [spec_float] with the operations of [SpecFloat] at precision 53.
    An [async] function is modelled as a tree of synchronous steps that
    stops at every [await] of a network request; [run] takes the outcome of
    each request from the environment, and [advance] stops at the request,
    for handlers that overlap. *)

From Stdlib Require Import ZArith List Bool String Lia QArith Qabs Qround Qpower Sorted.
From Stdlib Require Import Floats.SpecFloat.
From Stdlib Require Import Lqa.
From Stdlib Require DecimalString DecimalN Nnat.
Import ListNotations.

Local Open Scope Z_scope.

(** ** JavaScript numbers *)

Module JS.

Definition number := spec_float.

Definition prec : Z := 53.
Definition emax : Z := 1024.

(** A numeric literal with an integer value. *)
Definition lit (z : Z) : number := binary_normalize prec emax z 0 false.

Definition mul : number -> number -> number := SFmul prec emax.
Definition add : number -> number -> number := SFadd prec emax.
Definition div : number -> number -> number := SFdiv prec emax.
Definition lt : number -> number -> bool := SFltb.

(** [Math.min(a, b)] and [Math.max(a, b)]: NaN when an argument is NaN,
    and -0 is smaller than +0. *)
Definition Math_min (a b : number) : number :=
  match a, b with
  | S754_nan, _ | _, S754_nan => S754_nan
  | S754_zero sa, S754_zero sb => S754_zero (sa || sb)
  | _, _ => if lt b a then b else a
  end.

Definition Math_max (a b : number) : number :=
  match a, b with
  | S754_nan, _ | _, S754_nan => S754_nan
  | S754_zero sa, S754_zero sb => S754_zero (sa && sb)
  | _, _ => if lt a b then b else a
  end.

(** The integral part of a number, rounded towards zero; 0 for NaN, the
    infinities and the zeros (step 2 of ToInt16). *)
Definition truncate (x : number) : Z :=
  match x with
  | S754_finite s m e => cond_Zopp s (Z.shiftl (Zpos m) e)
  | _ => 0
  end.

(** ToInt16: the conversion applied when a number is stored into an
    [Int16Array]. *)
Definition ToInt16 (x : number) : Z :=
  let int16bit := truncate x mod 65536 in
  if 32768 <=? int16bit then int16bit - 65536 else int16bit.

(** Reading an element of a [Float32Array]: the binary32 value widened to
    binary64. *)
Definition of_float32 (f : spec_float) : number :=
  match f with
  | S754_finite s m e => binary_round prec emax s m e
  | _ => f
  end.

(** The binary64 number of value [p * 2^e], negated when [s] is set, for a
    [p] of at most 53 binary digits: the mantissa is shifted to 53 digits. *)
Definition normal (s : bool) (p : positive) (e : Z) : number :=
  let d := Zpos (digits2_pos p) in
  S754_finite s (Z.to_pos (Zpos p * 2 ^ (53 - d))) (e + d - 53).

End JS.

(** ** The PCM encoder ([src/lib/pcm.ts]) and the Recorder's inline conversion *)

Module Pcm.
Import JS.

(** The two bytes of an [Int16Array] element in the underlying buffer, as a
    [Uint8Array] over that buffer shows them on a little-endian platform:
    the two's complement pattern, low byte first. *)
Definition bytes_of_int16 (v : Z) : list Z :=
  [Z.land v 255; Z.land (Z.shiftr v 8) 255].

(** [new Uint8Array(pcm.buffer)] *)
Definition Uint8Array_of_buffer (pcm : list Z) : list Z :=
  flat_map bytes_of_int16 pcm.

(** The value stored in [pcm[i]] by one iteration of the loop of
    [float32To16LEPCM]. *)
Definition pcm_sample (x : number) : Z :=
  let s := Math_max (lit (-1)) (Math_min (lit 1) x) in
  ToInt16 (if lt s (lit 0) then mul s (lit 32768) else mul s (lit 32767)).

Definition float32To16LEPCM (float32Array : list spec_float) : list Z :=
  let pcm := map (fun f => pcm_sample (of_float32 f)) float32Array in
  Uint8Array_of_buffer pcm.

(** The value stored in [pcmData[i]] by the [onaudioprocess] callback of
    [setupRealtimeProcessing] in Recorder.vue. *)
Definition pcmData_sample (x : number) : Z :=
  ToInt16 (Math_max (lit (-32768)) (Math_min (lit 32767) (mul x (lit 32767)))).

(** The bytes that the callback base64-encodes and sends. *)
Definition onaudioprocess_bytes (inputBuffer : list spec_float) : list Z :=
  let pcmData := map (fun f => pcmData_sample (of_float32 f)) inputBuffer in
  Uint8Array_of_buffer pcmData.

(** The scale that [float32To16LEPCM] applies to a sample of sign [s]:
    [0x8000] when negative, [0x7fff] otherwise. *)
Definition scale (s : bool) : positive := if s then 32768%positive else 32767%positive.

(** [m * 2^e < 1], decided on integers. *)
Definition below_one (m : positive) (e : Z) : bool :=
  Zpos m * 2 ^ (e - Z.min e 0) <? 2 ^ (- Z.min e 0).

(** The same value for the finite sample of sign [s] and magnitude
    [m * 2^e], in integer arithmetic: the magnitude times the scale,
    rounded towards zero, when the magnitude is below 1; else the scale. *)
Definition encode_finite (s : bool) (m : positive) (e : Z) : Z :=
  if below_one m e
  then cond_Zopp s (Z.shiftl (Zpos (m * scale s)) e)
  else cond_Zopp s (Zpos (scale s)).

(** The rational number that a finite binary32 sample stands for. *)
Definition sample_value (f : spec_float) : Q :=
  match f with
  | S754_finite s m e => (inject_Z (cond_Zopp s (Zpos m)) * 2 ^ e)%Q
  | _ => 0%Q
  end.

(** Neither NaN nor an infinity. *)
Definition is_finite (f : spec_float) : bool :=
  match f with
  | S754_zero _ | S754_finite _ _ _ => true
  | _ => false
  end.

(** The 16-bit value of a sample as the spec words it, on rational
    numbers: the sample is clamped to [-1, 1] (the infinities to the ends),
    scaled by 32768 when negative and by 32767 otherwise, and rounded towards
    zero, which is written here on the magnitude and the sign; NaN gives 0. *)
Definition encode_spec (f : spec_float) : Z :=
  match f with
  | S754_zero _ => 0
  | S754_nan => 0
  | S754_infinity s => cond_Zopp s (Zpos (scale s))
  | S754_finite s _ _ =>
      let magnitude := Qabs (sample_value f) in
      let clamped := if Qlt_le_dec magnitude 1 then magnitude else 1%Q in
      cond_Zopp s (Qfloor (clamped * inject_Z (Zpos (scale s))))
  end.

(** The two bytes of a signed 16-bit value, low byte first. *)
Definition little_endian (v : Z) : list Z := [v mod 256; (v / 256) mod 256].

(** -1.0 and -0.5 as binary32 samples. *)
Definition minus_one : spec_float := S754_finite true 8388608 (-23).
Definition minus_half : spec_float := S754_finite true 8388608 (-24).
Definition plus_half : spec_float := S754_finite false 8388608 (-24).


(** Reading the buffer back: the signed 16-bit value held by two bytes. *)
Definition int16_of_bytes (lo hi : Z) : Z :=
  let u := lo + 256 * hi in
  if 32768 <=? u then u - 65536 else u.

End Pcm.

(** ** The transcript page: data *)

Module Word.
(** [end_] is the field [end]. *)
Record t := {
  start : JS.number;
  end_ : JS.number;
  confidence : JS.number;
  text : string;
  word_is_final : bool
}.
End Word.

Module TurnEventData.
Record t := {
  turn_order : Z;
  turn_is_formatted : bool;
  end_of_turn : bool;
  transcript : string;
  end_of_turn_confidence : JS.number;
  words : option (list Word.t)
}.
End TurnEventData.

Module TranscriptSegment.
Record t := {
  turn : Z;
  colorClass : string;
  timestamp : Z;
  confidence : JS.number;
  text : string;
  words : list Word.t;
  translated_text : option string
}.
End TranscriptSegment.

Module Color.
Record t := { text : string; bg : string; accent : string }.
End Color.

Local Open Scope string_scope.

Definition colors : list Color.t := [
  {| Color.text := "text-violet-700";
     Color.bg := "bg-gradient-to-r from-violet-50 to-purple-50 border-violet-200";
     Color.accent := "bg-violet-500" |};
  {| Color.text := "text-emerald-700";
     Color.bg := "bg-gradient-to-r from-emerald-50 to-teal-50 border-emerald-200";
     Color.accent := "bg-emerald-500" |};
  {| Color.text := "text-rose-700";
     Color.bg := "bg-gradient-to-r from-rose-50 to-pink-50 border-rose-200";
     Color.accent := "bg-rose-500" |};
  {| Color.text := "text-blue-700";
     Color.bg := "bg-gradient-to-r from-blue-50 to-indigo-50 border-blue-200";
     Color.accent := "bg-blue-500" |};
  {| Color.text := "text-amber-700";
     Color.bg := "bg-gradient-to-r from-amber-50 to-orange-50 border-amber-200";
     Color.accent := "bg-amber-500" |};
  {| Color.text := "text-cyan-700";
     Color.bg := "bg-gradient-to-r from-cyan-50 to-sky-50 border-cyan-200";
     Color.accent := "bg-cyan-500" |}
].

(** The refs of the component that [handleTurnEvent] and [translate] read
    and write. *)
Record Store := {
  transcript : list TranscriptSegment.t;
  currentTurnWords : list string;
  currentTurnOrder : Z;
  colorIndex : Z;
  language : string
}.

(** The state set up by [startStreaming]; [language] is the user's choice. *)
Definition initial (lang : string) : Store :=
  {| transcript := []; currentTurnWords := []; currentTurnOrder := -1;
     colorIndex := 0; language := lang |}.

(** ** Asynchronous functions *)

(** The request built by [translate]. *)
Record Request := {
  url : string;
  method : string;
  body_text : string;
  body_language : string
}.

(** How the environment settles [fetch] and the reading of the response's
    body: the two awaits of [translate] are one suspension. *)
Inductive FetchOutcome :=
| Responded (ok : bool) (status : Z) (body : option string)
| NetworkFailure.

(** An [async] function body: synchronous reads and writes of the refs,
    [Date.now()], and suspension on a request. *)
Inductive Async (A : Type) : Type :=
| Return (a : A)
| Throw (msg : string)
| Get (k : Store -> Async A)
| Put (s : Store) (k : Async A)
| DateNow (k : Z -> Async A)
| Await (req : Request) (k : FetchOutcome -> Async A).

Arguments Return {A} a.
Arguments Throw {A} msg.
Arguments Get {A} k.
Arguments Put {A} s k.
Arguments DateNow {A} k.
Arguments Await {A} req k.

Fixpoint bind {A B : Type} (m : Async A) (f : A -> Async B) : Async B :=
  match m with
  | Return a => f a
  | Throw msg => Throw msg
  | Get k => Get (fun s => bind (k s) f)
  | Put s k => Put s (bind k f)
  | DateNow k => DateNow (fun z => bind (k z) f)
  | Await req k => Await req (fun o => bind (k o) f)
  end.

Declare Scope async_scope.
Delimit Scope async_scope with async.
Notation "x <- m ;; k" := (bind m (fun x => k))
  (at level 61, m at next level, right associativity) : async_scope.
Notation "m ;;; k" := (bind m (fun _ => k))
  (at level 61, right associativity) : async_scope.
Local Open Scope async_scope.

Definition get : Async Store := Get Return.
Definition put (s : Store) : Async unit := Put s (Return tt).
Definition Date_now : Async Z := DateNow Return.
Definition await (req : Request) : Async FetchOutcome := Await req Return.

(** [xs.forEach(f)] *)
Fixpoint forEach {A : Type} (xs : list A) (f : A -> Async unit) : Async unit :=
  match xs with
  | [] => Return tt
  | x :: rest => f x ;;; forEach rest f
  end.

(** The environment: how each request is settled ([None]: never), and the
    clock. Both may depend on the refs at the time of the call. *)
Record Env := {
  fetch : Store -> Request -> option FetchOutcome;
  clock : Store -> Z
}.

Inductive Outcome (A : Type) : Type :=
| Fulfilled (a : A)
| Rejected (msg : string)
| Pending.

Arguments Fulfilled {A} a.
Arguments Rejected {A} msg.
Arguments Pending {A}.

(** Running an async function from a store: the store when it completes,
    rejects, or is left suspended for ever. *)
Fixpoint run {A : Type} (env : Env) (m : Async A) (s : Store) : Store * Outcome A :=
  match m with
  | Return a => (s, Fulfilled a)
  | Throw msg => (s, Rejected msg)
  | Get k => run env (k s) s
  | Put s' k => run env k s'
  | DateNow k => run env (k (clock env s)) s
  | Await req k =>
      match fetch env s req with
      | Some o => run env (k o) s
      | None => (s, Pending)
      end
  end.

(** A handler suspended at an [await]: its request and what follows. *)
Inductive Suspended : Type :=
| suspended_on (req : Request) (k : FetchOutcome -> Async unit).

(** Running an async function up to its next [await]. *)
Fixpoint advance (now : Store -> Z) (m : Async unit) (s : Store)
    : Store * (Outcome unit + Suspended) :=
  match m with
  | Return a => (s, inl (Fulfilled a))
  | Throw msg => (s, inl (Rejected msg))
  | Get k => advance now (k s) s
  | Put s' k => advance now k s'
  | DateNow k => advance now (k (now s)) s
  | Await req k => (s, inr (suspended_on req k))
  end.

(** ** The transcript page: [translate] and [handleTurnEvent] *)

(** [currentTurnWords.value.join(' ')] *)
Definition join (sep : string) (xs : list string) : string := String.concat sep xs.

(** [currentTurnWords.value.includes(text)] *)
Definition includes (xs : list string) (x : string) : bool :=
  existsb (String.eqb x) xs.

(** [colors[i].text]; reading a property of [undefined] throws. *)
Definition colors_text (i : Z) : Async string :=
  match (if (i <? 0)%Z then None else nth_error colors (Z.to_nat i)) with
  | Some c => Return (Color.text c)
  | None => Throw "TypeError"
  end.

Definition colors_length : Z := Z.of_nat (List.length colors).

Definition translate (text : string) : Async string :=
  s <- get ;;
  o <- await {| url := "/api/translate"; method := "POST";
                body_text := text; body_language := language s |} ;;
  match o with
  | Responded true _ (Some translated_text) => Return translated_text
  | _ => Return ("Translation Error: " ++ text)
  end.

(** [let t = undefined; if (language.value !== 'en') t = await translate(text)] *)
Definition translate_unless_en (text : string) : Async (option string) :=
  s <- get ;;
  if negb (language s =? "en")%string
  then (t <- translate text ;; Return (Some t))
  else Return None.

Definition avgConfidence (newWords : list Word.t) : JS.number :=
  if (0 <? List.length newWords)%nat
  then JS.div
         (fold_left (fun acc word => JS.add acc (Word.confidence word)) newWords (JS.lit 0))
         (JS.lit (Z.of_nat (List.length newWords)))
  else JS.lit 0.

(** The body of [newWords.forEach]. *)
Definition push_final_word (word : Word.t) : Async unit :=
  s <- get ;;
  if Word.word_is_final word && negb (includes (currentTurnWords s) (Word.text word))
  then put {| transcript := transcript s;
              currentTurnWords := currentTurnWords s ++ [Word.text word];
              currentTurnOrder := currentTurnOrder s;
              colorIndex := colorIndex s;
              language := language s |}
  else Return tt.

(** [transcript.value.push(segment)] *)
Definition push_segment (seg : TranscriptSegment.t) : Async unit :=
  s <- get ;;
  put {| transcript := transcript s ++ [seg];
         currentTurnWords := currentTurnWords s;
         currentTurnOrder := currentTurnOrder s;
         colorIndex := colorIndex s;
         language := language s |}.

Definition handleTurnEvent (data : TurnEventData.t) : Async unit :=
  let newWords := match TurnEventData.words data with Some ws => ws | None => [] end in
  let avg := avgConfidence newWords in
  s <- get ;;
  (if negb (TurnEventData.turn_order data =? currentTurnOrder s)%Z
   then
     (if (0 <? List.length (currentTurnWords s))%nat
      then
        let currentSegmentText := join " " (currentTurnWords s) in
        translated_textForSegment <- translate_unless_en currentSegmentText ;;
        s1 <- get ;;
        color <- colors_text (Z.rem (colorIndex s1 - 1 + colors_length) colors_length) ;;
        now <- Date_now ;;
        push_segment
          {| TranscriptSegment.text := currentSegmentText;
             TranscriptSegment.turn := currentTurnOrder s1;
             TranscriptSegment.colorClass := color;
             TranscriptSegment.timestamp := now;
             TranscriptSegment.confidence := avg;
             TranscriptSegment.words := [];
             TranscriptSegment.translated_text := translated_textForSegment |}
      else Return tt) ;;;
     s2 <- get ;;
     put {| transcript := transcript s2;
            currentTurnWords := [];
            currentTurnOrder := TurnEventData.turn_order data;
            colorIndex := Z.rem (colorIndex s2 + 1) colors_length;
            language := language s2 |}
   else Return tt) ;;;
  forEach newWords push_final_word ;;;
  s3 <- get ;;
  if TurnEventData.end_of_turn data && (0 <? List.length (currentTurnWords s3))%nat
  then
    let finalTurnText := join " " (currentTurnWords s3) in
    translated_textForFinalTurn <- translate_unless_en finalTurnText ;;
    s4 <- get ;;
    color <- colors_text (colorIndex s4) ;;
    now <- Date_now ;;
    push_segment
      {| TranscriptSegment.text := finalTurnText;
         TranscriptSegment.turn := currentTurnOrder s4;
         TranscriptSegment.colorClass := color;
         TranscriptSegment.timestamp := now;
         TranscriptSegment.confidence := avg;
         TranscriptSegment.words := newWords;
         TranscriptSegment.translated_text := translated_textForFinalTurn |} ;;;
    s5 <- get ;;
    put {| transcript := transcript s5;
           currentTurnWords := [];
           currentTurnOrder := -1;
           colorIndex := colorIndex s5;
           language := language s5 |}
  else Return tt.

(** Events delivered one after the other: each handler starts from the refs
    as the previous one left them, whether it completed or stays suspended
    on a request that is never settled. *)
Fixpoint handleAll (env : Env) (events : list TurnEventData.t) (s : Store) : Store :=
  match events with
  | [] => s
  | data :: rest => handleAll env rest (fst (run env (handleTurnEvent data) s))
  end.

(** The page with handlers that overlap: the refs and the suspended
    handlers, oldest first. An event is delivered (its handler runs to its
    first [await]), or the request of the [n]-th suspended handler is
    settled (that handler runs to its next [await]). *)
Record Page := { refs : Store; waiting : list Suspended }.

Inductive Occurrence : Type :=
| Deliver (data : TurnEventData.t)
| Settle (n : nat) (o : FetchOutcome).

Definition still_waiting (r : Outcome unit + Suspended) : list Suspended :=
  match r with inl _ => [] | inr w => [w] end.

Definition occur (now : Store -> Z) (p : Page) (x : Occurrence) : Page :=
  match x with
  | Deliver data =>
      let (s, r) := advance now (handleTurnEvent data) (refs p) in
      {| refs := s; waiting := (waiting p ++ still_waiting r)%list |}
  | Settle n o =>
      match nth_error (waiting p) n with
      | Some (suspended_on _ k) =>
          let (s, r) := advance now (k o) (refs p) in
          {| refs := s;
             waiting := (firstn n (waiting p) ++ skipn (S n) (waiting p)
                         ++ still_waiting r)%list |}
      | None => p
      end
  end.

Definition occurrences (now : Store -> Z) (xs : list Occurrence) (p : Page) : Page :=
  fold_left (occur now) xs p.

(** The turn numbers of the segments of a transcript, in order. *)
Definition turns (segs : list TranscriptSegment.t) : list Z :=
  map TranscriptSegment.turn segs.

(** Every request is settled. *)
Definition settles (env : Env) : Prop :=
  forall s req, fetch env s req <> None.

(** No request is ever settled. *)
Definition never : Env := {| fetch := fun _ _ => None; clock := fun _ => 0 |}.

(** Every request is answered [200 OK] with the text between brackets. *)
Definition echo : Env :=
  {| fetch := fun _ req => Some (Responded true 200 (Some ("[" ++ body_text req ++ "]")));
     clock := fun s => Z.of_nat (List.length (transcript s)) |}.


(** A final word of text [w]. *)
Definition final_word (w : string) : Word.t :=
  {| Word.start := JS.lit 0; Word.end_ := JS.lit 1; Word.confidence := JS.lit 1;
     Word.text := w; Word.word_is_final := true |}.

(** The Turn message of turn order [order] with the words [ws]. *)
Definition event (order : Z) (eot : bool) (ws : list Word.t) : TurnEventData.t :=
  {| TurnEventData.turn_order := order; TurnEventData.turn_is_formatted := false;
     TurnEventData.end_of_turn := eot; TurnEventData.transcript := "";
     TurnEventData.end_of_turn_confidence := JS.lit 0;
     TurnEventData.words := Some ws |}.

(** ** Pure descriptions of the handler's synchronous steps *)

(** What [translate] resolves with, given the outcome of its request. *)
Definition translation_result (text : string) (o : FetchOutcome) : string :=
  match o with
  | Responded true _ (Some translated_text) => translated_text
  | _ => "Translation Error: " ++ text
  end.

Definition translate_request (text : string) (s : Store) : Request :=
  {| url := "/api/translate"; method := "POST";
     body_text := text; body_language := language s |}.

(** The word list after [newWords.forEach] has run over [ws]. *)
Definition accumulate (open : list string) (ws : list Word.t) : list string :=
  fold_left
    (fun acc word =>
       if Word.word_is_final word && negb (includes acc (Word.text word))
       then (acc ++ [Word.text word])%list else acc)
    ws open.

Definition with_words (s : Store) (ws : list string) : Store :=
  {| transcript := transcript s; currentTurnWords := ws;
     currentTurnOrder := currentTurnOrder s; colorIndex := colorIndex s;
     language := language s |}.

Definition with_segment (s : Store) (seg : TranscriptSegment.t) : Store :=
  {| transcript := (transcript s ++ [seg])%list; currentTurnWords := currentTurnWords s;
     currentTurnOrder := currentTurnOrder s; colorIndex := colorIndex s;
     language := language s |}.

(** The texts of the final words of an event, in order. *)
Definition final_texts (data : TurnEventData.t) : list string :=
  map Word.text
    (filter Word.word_is_final
       (match TurnEventData.words data with Some ws => ws | None => [] end)).

(** Turn orders never decrease along the events. *)
Fixpoint non_decreasing (events : list TurnEventData.t) : bool :=
  match events with
  | [] => true
  | data :: rest =>
      forallb (fun later => TurnEventData.turn_order data <=? TurnEventData.turn_order later)%Z rest
      && non_decreasing rest
  end.

(** Turn orders never decrease, and no event carries the turn order of an
    earlier event that had [end_of_turn] set. *)
Fixpoint closed_turns_stay_closed (events : list TurnEventData.t) : bool :=
  match events with
  | [] => true
  | data :: rest =>
      forallb (fun later =>
                 if TurnEventData.end_of_turn data
                 then (TurnEventData.turn_order data <? TurnEventData.turn_order later)%Z
                 else (TurnEventData.turn_order data <=? TurnEventData.turn_order later)%Z) rest
      && closed_turns_stay_closed rest
  end.

(** [colors[i].text], when [colors[i]] exists. *)
Definition color_at (i : Z) : option string :=
  if (i <? 0)%Z then None else option_map Color.text (nth_error colors (Z.to_nat i)).

(** [data.words || []] *)
Definition event_words (data : TurnEventData.t) : list Word.t :=
  match TurnEventData.words data with Some ws => ws | None => [] end.

(** Closing a turn from store [s]: the translation is awaited when the
    language is not English, then the segment is pushed. *)
Definition finish (env : Env) (s : Store) (text : string) (color_index : Z)
    (avg : JS.number) (ws : list Word.t) : Store * Outcome unit :=
  let push tr :=
    match color_at color_index with
    | Some c =>
        (with_segment s
           {| TranscriptSegment.text := text;
              TranscriptSegment.turn := currentTurnOrder s;
              TranscriptSegment.colorClass := c;
              TranscriptSegment.timestamp := clock env s;
              TranscriptSegment.confidence := avg;
              TranscriptSegment.words := ws;
              TranscriptSegment.translated_text := tr |}, Fulfilled tt)
    | None => (s, Rejected "TypeError")
    end in
  if (language s =? "en")%string then push None
  else match fetch env s (translate_request text s) with
       | Some o => push (Some (translation_result text o))
       | None => (s, Pending)
       end.

Definition open_turn (s : Store) (order : Z) : Store :=
  {| transcript := transcript s; currentTurnWords := [];
     currentTurnOrder := order;
     colorIndex := Z.rem (colorIndex s + 1) colors_length;
     language := language s |}.

Definition close_turn (s : Store) : Store :=
  {| transcript := transcript s; currentTurnWords := [];
     currentTurnOrder := -1; colorIndex := colorIndex s;
     language := language s |}.

(** The first [if] of [handleTurnEvent]: the turn boundary. *)
Definition boundary_step (env : Env) (data : TurnEventData.t) (s : Store)
    : Store * Outcome unit :=
  if (TurnEventData.turn_order data =? currentTurnOrder s)%Z then (s, Fulfilled tt)
  else
    match
      (if (0 <? List.length (currentTurnWords s))%nat
       then finish env s (join " " (currentTurnWords s))
              (Z.rem (colorIndex s - 1 + colors_length) colors_length)
              (avgConfidence (event_words data)) []
       else (s, Fulfilled tt))
    with
    | (s', Fulfilled _) => (open_turn s' (TurnEventData.turn_order data), Fulfilled tt)
    | other => other
    end.

(** The last [if] of [handleTurnEvent]: the explicit close. *)
Definition close_step (env : Env) (data : TurnEventData.t) (s : Store)
    : Store * Outcome unit :=
  if TurnEventData.end_of_turn data && (0 <? List.length (currentTurnWords s))%nat
  then
    match finish env s (join " " (currentTurnWords s)) (colorIndex s)
            (avgConfidence (event_words data)) (event_words data) with
    | (s', Fulfilled _) => (close_turn s', Fulfilled tt)
    | other => other
    end
  else (s, Fulfilled tt).

Definition step (env : Env) (data : TurnEventData.t) (s : Store)
    : Store * Outcome unit :=
  match boundary_step env data s with
  | (s1, Fulfilled _) =>
      close_step env data
        (with_words s1 (accumulate (currentTurnWords s1) (event_words data)))
  | other => other
  end.




(** What [translate] attaches for [text] under [env] from store [s]:
    nothing in English, else the result of the settled request. *)
Definition translated (env : Env) (s : Store) (text : string) (tr : option string) : Prop :=
  ((language s =? "en")%string = true /\ tr = None) \/
  ((language s =? "en")%string = false /\
   exists o, fetch env s (translate_request text s) = Some o /\
             tr = Some (translation_result text o)).

(** [seg] is the segment that closes the open turn of store [s]. *)
Definition segment_of (env : Env) (s : Store) (seg : TranscriptSegment.t) : Prop :=
  TranscriptSegment.turn seg = currentTurnOrder s /\
  TranscriptSegment.text seg = join " " (currentTurnWords s) /\
  translated env s (TranscriptSegment.text seg) (TranscriptSegment.translated_text seg).

(** The handler stopped before pushing: suspended on a request that is
    never settled, or on an exception. *)
Definition stopped (env : Env) (s : Store) (o : Outcome unit) : Prop :=
  o <> Fulfilled tt /\
  (o = Pending ->
   (language s =? "en")%string = false /\ exists req, fetch env s req = None).

(** What the turn boundary can do. *)
Inductive boundary_spec (env : Env) (data : TurnEventData.t) (s : Store)
    : Store * Outcome unit -> Prop :=
| boundary_same :
    TurnEventData.turn_order data = currentTurnOrder s ->
    boundary_spec env data s (s, Fulfilled tt)
| boundary_open :
    TurnEventData.turn_order data <> currentTurnOrder s ->
    currentTurnWords s = [] ->
    boundary_spec env data s (open_turn s (TurnEventData.turn_order data), Fulfilled tt)
| boundary_stopped (o : Outcome unit) :
    TurnEventData.turn_order data <> currentTurnOrder s ->
    currentTurnWords s <> [] ->
    stopped env s o ->
    boundary_spec env data s (s, o)
| boundary_pushed (seg : TranscriptSegment.t) :
    TurnEventData.turn_order data <> currentTurnOrder s ->
    currentTurnWords s <> [] ->
    segment_of env s seg ->
    boundary_spec env data s
      (open_turn (with_segment s seg) (TurnEventData.turn_order data), Fulfilled tt).

(** What the explicit close can do. *)
Inductive close_spec (env : Env) (data : TurnEventData.t) (s : Store)
    : Store * Outcome unit -> Prop :=
| close_none :
    TurnEventData.end_of_turn data = false \/ currentTurnWords s = [] ->
    close_spec env data s (s, Fulfilled tt)
| close_stopped (o : Outcome unit) :
    TurnEventData.end_of_turn data = true ->
    currentTurnWords s <> [] ->
    stopped env s o ->
    close_spec env data s (s, o)
| close_pushed (seg : TranscriptSegment.t) :
    TurnEventData.end_of_turn data = true ->
    currentTurnWords s <> [] ->
    segment_of env s seg ->
    close_spec env data s (close_turn (with_segment s seg), Fulfilled tt).

(** The invariant of the refs before the events [events] are handled: the
    segments are in strictly increasing turn order, below the turn orders
    still to come, and below the open turn when it has words, which is
    itself not above the turn orders to come. *)
Definition ordered_before (events : list TurnEventData.t) (s : Store) : Prop :=
  StronglySorted Z.lt (turns (transcript s)) /\
  (forall later, In later events ->
     Forall (fun t => t < TurnEventData.turn_order later)%Z (turns (transcript s))) /\
  (currentTurnWords s <> [] ->
     (forall later, In later events ->
        (currentTurnOrder s <= TurnEventData.turn_order later)%Z) /\
     Forall (fun t => t < currentTurnOrder s)%Z (turns (transcript s))).




(** Turn 0 is open with the word A. *)
Definition open_turn_A : Store :=
  {| transcript := []; currentTurnWords := ["A"]; currentTurnOrder := 0;
     colorIndex := 1; language := "es" |}.

(** Two events of turn 0, the second ending it, then turns 1 and 2. *)
Definition four_turns : list TurnEventData.t :=
  [event 0 false [final_word "A"]; event 0 true [final_word "B"];
   event 1 false [final_word "C"]; event 2 true [final_word "D"]].

(** ** Further descriptions of the inline conversion of Recorder.vue *)

Module Inline.

Local Open Scope Z_scope.

(** [n * 2^e < c], decided on integers. *)
Definition below (n c : positive) (e : Z) : bool :=
  Zpos n * 2 ^ (e - Z.min e 0) <? Zpos c * 2 ^ (- Z.min e 0).

(** The 16-bit value that the callback stores for the finite sample of sign
    [s] and magnitude [m * 2^e], in integer arithmetic: the magnitude times
    32767, rounded towards zero, when that is below the end of the range
    (32768 for a negative sample, 32767 otherwise); else that end. *)
Definition finite (s : bool) (m : positive) (e : Z) : Z :=
  if below (m * 32767) (Pcm.scale s) e
  then cond_Zopp s (Z.shiftl (Zpos (m * 32767)) e)
  else cond_Zopp s (Zpos (Pcm.scale s)).

(** The same on rational numbers, as the callback words it: the sample is
    multiplied by 32767, clamped to [-32768, 32767] and rounded towards
    zero; this is written on the magnitude and the sign. NaN gives 0. *)
Definition spec (f : spec_float) : Z :=
  match f with
  | S754_zero _ => 0
  | S754_nan => 0
  | S754_infinity s => cond_Zopp s (Zpos (Pcm.scale s))
  | S754_finite s _ _ =>
      let scaled := (Qabs (Pcm.sample_value f) * 32767)%Q in
      let bound := inject_Z (Zpos (Pcm.scale s)) in
      let clamped := if Qlt_le_dec scaled bound then scaled else bound in
      cond_Zopp s (Qfloor clamped)
  end.

End Inline.

(** ** The recording clock of Recorder.vue *)

Module Recorder.
Import Ascii.

(** [n.toString()] for a number that is a non-negative integer: its
    decimal digits. *)
Definition toString (n : N) : string :=
  DecimalString.NilEmpty.string_of_uint (N.to_uint n).

(** [count] copies of the character [c]. *)
Fixpoint copies (count : nat) (c : Ascii.ascii) : string :=
  match count with
  | O => EmptyString
  | S count' => String c (copies count' c)
  end.

(** [str.padStart(targetLength, c)] for a one-character filler. *)
Definition padStart (targetLength : nat) (c : Ascii.ascii) (str : string) : string :=
  (copies (targetLength - String.length str) c ++ str)%string.

(** [formattedTime]; [recordingTime] counts the ticks of the timer, one per
    second from 0. *)
Definition formattedTime (recordingTime : N) : string :=
  let mins := (recordingTime / 60)%N in
  let secs := (recordingTime mod 60)%N in
  (padStart 2 "0"%char (toString mins) ++ ":"
   ++ padStart 2 "0"%char (toString secs))%string.

End Recorder.

(** ** The transcription socket of Recorder.vue *)

Module Transcription.

(** [WebSocket.readyState] *)
Inductive ReadyState := CONNECTING | OPEN | CLOSING | CLOSED.

(** What the recorder sends: [{ type: 'audio', data }], given here by the
    bytes that [data] holds in base64, and [{ type: 'stop' }]. *)
Inductive Message :=
| audio (bytes : list Z)
| stop.

(** A socket object: its state and what was passed to its [send]. *)
Record WebSocket := { readyState : ReadyState; sent : list Message }.

(** The socket objects created so far, oldest first; the ref [websocket],
    null or one of them; the ref [isTranscribing]. *)
Record Refs := {
  sockets : list WebSocket;
  websocket : option nat;
  isTranscribing : bool
}.

Definition unconnected : Refs :=
  {| sockets := []; websocket := None; isTranscribing := false |}.

Definition is_open (r : ReadyState) : bool :=
  match r with OPEN => true | _ => false end.

(** [socket.send(m)] *)
Definition send (m : Message) (socket : WebSocket) : WebSocket :=
  {| readyState := readyState socket; sent := (sent socket ++ [m])%list |}.

(** [socket.close()]: the closing handshake starts, unless the socket is
    closed already. *)
Definition close (socket : WebSocket) : WebSocket :=
  {| readyState := match readyState socket with CLOSED => CLOSED | _ => CLOSING end;
     sent := sent socket |}.

(** The socket objects with [f] applied to the [i]-th. *)
Fixpoint update (i : nat) (f : WebSocket -> WebSocket) (l : list WebSocket)
    : list WebSocket :=
  match l, i with
  | [], _ => []
  | socket :: rest, O => f socket :: rest
  | socket :: rest, S i' => socket :: update i' f rest
  end.

(** [websocket.value?.readyState === WebSocket.OPEN] *)
Definition websocket_is_open (r : Refs) : bool :=
  match websocket r with
  | Some i =>
      match nth_error (sockets r) i with
      | Some socket => is_open (readyState socket)
      | None => false
      end
  | None => false
  end.

(** [setupWebSocket]; [enabled] is
    [props.enableTranscription && props.websocketUrl]. *)
Definition setupWebSocket (enabled : bool) (r : Refs) : Refs :=
  if enabled
  then {| sockets := (sockets r ++ [{| readyState := CONNECTING; sent := [] |}])%list;
          websocket := Some (List.length (sockets r));
          isTranscribing := isTranscribing r |}
  else r.

(** [closeWebSocket] *)
Definition closeWebSocket (r : Refs) : Refs :=
  match websocket r with
  | Some i =>
      let sockets1 :=
        if websocket_is_open r then update i (send stop) (sockets r) else sockets r in
      {| sockets := update i close sockets1; websocket := None;
         isTranscribing := false |}
  | None => r
  end.

(** The [onaudioprocess] callback on the samples of the input buffer. *)
Definition onaudioprocess (inputBuffer : list spec_float) (r : Refs) : Refs :=
  if websocket_is_open r
  then match websocket r with
       | Some i =>
           {| sockets :=
                update i (send (audio (Pcm.onaudioprocess_bytes inputBuffer))) (sockets r);
              websocket := websocket r;
              isTranscribing := isTranscribing r |}
       | None => r
       end
  else r.

(** What happens to the recorder's socket: the recorder's own calls, and
    the connection of the [i]-th socket object being established or closed
    (with the [onopen] and [onclose] handlers that [setupWebSocket]
    attached to it). *)
Inductive Event :=
| Setup (enabled : bool)
| Audio (inputBuffer : list spec_float)
| Close
| Opened (i : nat)
| Closed (i : nat).

Definition opened (socket : WebSocket) : WebSocket :=
  {| readyState := match readyState socket with CONNECTING => OPEN | other => other end;
     sent := sent socket |}.

Definition closed (socket : WebSocket) : WebSocket :=
  {| readyState := CLOSED; sent := sent socket |}.

Definition handle (r : Refs) (e : Event) : Refs :=
  match e with
  | Setup enabled => setupWebSocket enabled r
  | Audio inputBuffer => onaudioprocess inputBuffer r
  | Close => closeWebSocket r
  | Opened i =>
      match nth_error (sockets r) i with
      | Some socket =>
          if match readyState socket with CONNECTING => true | _ => false end
          then {| sockets := update i opened (sockets r); websocket := websocket r;
                  isTranscribing := true |}
          else r
      | None => r
      end
  | Closed i =>
      match nth_error (sockets r) i with
      | Some socket =>
          if match readyState socket with CLOSED => false | _ => true end
          then {| sockets := update i closed (sockets r); websocket := websocket r;
                  isTranscribing := false |}
          else r
      | None => r
      end
  end.

Definition handleEvents (events : list Event) (r : Refs) : Refs :=
  fold_left handle events r.







End Transcription.

(** ** Further descriptions of the transcript page *)

(** The word [w] is a final word of an event of turn order [order] among
    the events [seen]. *)
Definition from_turn (seen : list TurnEventData.t) (order : Z) (w : string) : Prop :=
  exists data, In data seen /\ TurnEventData.turn_order data = order /\
               In w (final_texts data).

(** The text of [seg] joins at least one word, and only final words of the
    events of [seen] that carry the segment's turn. *)
Definition made_of_final_words (seen : list TurnEventData.t)
    (seg : TranscriptSegment.t) : Prop :=
  exists ws, TranscriptSegment.text seg = join " " ws /\ ws <> [] /\
             forall w, In w ws -> from_turn seen (TranscriptSegment.turn seg) w.

(** Where the words of the refs come from, after the events [seen]. *)
Definition provenance (seen : list TurnEventData.t) (s : Store) : Prop :=
  (forall w, In w (currentTurnWords s) -> from_turn seen (currentTurnOrder s) w) /\
  Forall (made_of_final_words seen) (transcript s).

(** [colors[colorIndex]] exists. *)
Definition color_in_range (s : Store) : Prop :=
  (0 <= colorIndex s < colors_length)%Z.

(** ** Clearing the transcript *)





(** The word [w] of turn [order] is on the page: among the words of the
    open turn [order], or among the words joined in the text of a segment of
    turn [order]. *)
Definition kept (s : Store) (order : Z) (w : string) : Prop :=
  (currentTurnOrder s = order /\ In w (currentTurnWords s)) \/
  exists seg ws, In seg (transcript s) /\ TranscriptSegment.turn seg = order /\
                 TranscriptSegment.text seg = join " " ws /\ In w ws.

(** ** The statistics of the transcript page *)

(** [text.split(' ')]: the pieces of [text] between the occurrences of the
    one-character separator; the empty string gives one empty piece. *)
Fixpoint split (sep : Ascii.ascii) (text : string) : list string :=
  match text with
  | EmptyString => [EmptyString]
  | String c rest =>
      if Ascii.eqb c sep then EmptyString :: split sep rest
      else match split sep rest with
           | piece :: more => String c piece :: more
           | [] => [String c EmptyString]
           end
  end.

(** [transcriptStats.value.totalWords] *)
Definition totalWords (s : Store) : nat :=
  (fold_left
     (fun acc segment =>
        acc + List.length (split Ascii.Space (TranscriptSegment.text segment)))
     (transcript s) 0
   + List.length (currentTurnWords s))%nat.

(** [transcriptStats.value.totalTurns] *)
Definition totalTurns (s : Store) : nat :=
  (List.length (transcript s)
   + (if (0 <? List.length (currentTurnWords s))%nat then 1 else 0))%nat.

(** The strings that [totalWords] counts: the pieces of the text of each
    segment, and the words of the open turn. *)
Definition counted (s : Store) : list string :=
  (flat_map (fun segment => split Ascii.Space (TranscriptSegment.text segment)) (transcript s)
   ++ currentTurnWords s)%list.

(** No space in [w]. *)
Fixpoint no_space (w : string) : bool :=
  match w with
  | EmptyString => true
  | String c rest => negb (Ascii.eqb c Ascii.Space) && no_space rest
  end.

(** * Properties of the transcript page *)

Section Running.

Variable env : Env.

Lemma run_bind {A B : Type} (m : Async A) (f : A -> Async B) (s : Store) :
  run env (bind m f) s =
  match run env m s with
  | (s', Fulfilled a) => run env (f a) s'
  | (s', Rejected msg) => (s', Rejected msg)
  | (s', Pending) => (s', Pending)
  end.
Proof.
  revert s.
  induction m as [a | msg | k IH | s0 k IH | k IH | req k IH]; intro s; simpl; auto.
  destruct (fetch env s req); auto.
Qed.


Lemma run_translate (text : string) (s : Store) :
  run env (translate text) s =
  match fetch env s (translate_request text s) with
  | Some o => (s, Fulfilled (translation_result text o))
  | None => (s, Pending)
  end.
Proof.
  unfold translate, translate_request. simpl.
  destruct (fetch env s _) as [o |]; [| reflexivity].
  destruct o as [[|] st [b |] |]; reflexivity.
Qed.

Lemma run_translate_unless_en (text : string) (s : Store) :
  run env (translate_unless_en text) s =
  if (language s =? "en")%string then (s, Fulfilled None)
  else match fetch env s (translate_request text s) with
       | Some o => (s, Fulfilled (Some (translation_result text o)))
       | None => (s, Pending)
       end.
Proof.
  unfold translate_unless_en. rewrite run_bind. cbn [run get].
  destruct (language s =? "en")%string; cbn [negb run]; [reflexivity |].
  rewrite run_bind, run_translate.
  destruct (fetch env s _); reflexivity.
Qed.

Lemma run_push_final_word (word : Word.t) (s : Store) :
  run env (push_final_word word) s =
  (with_words s (accumulate (currentTurnWords s) [word]), Fulfilled tt).
Proof.
  unfold push_final_word, accumulate, with_words. simpl.
  destruct (Word.word_is_final word && _); simpl; [reflexivity |].
  destruct s; reflexivity.
Qed.

Lemma run_forEach_push (ws : list Word.t) (s : Store) :
  run env (forEach ws push_final_word) s =
  (with_words s (accumulate (currentTurnWords s) ws), Fulfilled tt).
Proof.
  revert s. induction ws as [| w ws IH]; intro s.
  - destruct s; reflexivity.
  - cbn [forEach]. rewrite run_bind, run_push_final_word, IH. reflexivity.
Qed.

Lemma run_push_segment (seg : TranscriptSegment.t) (s : Store) :
  run env (push_segment seg) s = (with_segment s seg, Fulfilled tt).
Proof. reflexivity. Qed.

Lemma run_colors_text {A : Type} (i : Z) (f : string -> Async A) (s : Store) :
  run env (bind (colors_text i) f) s =
  match color_at i with
  | Some c => run env (f c) s
  | None => (s, Rejected "TypeError")
  end.
Proof.
  unfold colors_text, color_at.
  destruct (i <? 0)%Z; [reflexivity |].
  destruct (nth_error colors (Z.to_nat i)); reflexivity.
Qed.

Ltac run_step :=
  first
    [ rewrite run_translate_unless_en
    | rewrite run_colors_text
    | rewrite run_forEach_push
    | rewrite run_push_segment
    | rewrite run_bind; cbn [run get put Date_now] ].

(** The explicit close, followed by nothing. *)
Lemma run_close (data : TurnEventData.t) (s : Store) :
  run env
    (s3 <- get ;;
     if TurnEventData.end_of_turn data && (0 <? List.length (currentTurnWords s3))%nat
     then
       let finalTurnText := join " " (currentTurnWords s3) in
       translated_textForFinalTurn <- translate_unless_en finalTurnText ;;
       s4 <- get ;;
       color <- colors_text (colorIndex s4) ;;
       now <- Date_now ;;
       push_segment
         {| TranscriptSegment.text := finalTurnText;
            TranscriptSegment.turn := currentTurnOrder s4;
            TranscriptSegment.colorClass := color;
            TranscriptSegment.timestamp := now;
            TranscriptSegment.confidence := avgConfidence (event_words data);
            TranscriptSegment.words := event_words data;
            TranscriptSegment.translated_text := translated_textForFinalTurn |} ;;;
       s5 <- get ;;
       put {| transcript := transcript s5;
              currentTurnWords := [];
              currentTurnOrder := -1;
              colorIndex := colorIndex s5;
              language := language s5 |}
     else Return tt) s
  = close_step env data s.
Proof.
  unfold close_step, finish. run_step.
  destruct (TurnEventData.end_of_turn data && _); [| reflexivity].
  cbv zeta. do 2 run_step.
  destruct (language s =? "en")%string.
  - do 2 run_step. destruct (color_at (colorIndex s)); [| reflexivity].
    repeat run_step. reflexivity.
  - destruct (fetch env s _); [| reflexivity].
    do 2 run_step. destruct (color_at (colorIndex s)); [| reflexivity].
    repeat run_step. reflexivity.
Qed.

(** The handler, one synchronous stretch after the other. *)
Lemma run_handleTurnEvent (data : TurnEventData.t) (s : Store) :
  run env (handleTurnEvent data) s = step env data s.
Proof.
  unfold handleTurnEvent, step, boundary_step.
  fold (event_words data). cbv zeta.
  do 2 run_step.
  destruct (TurnEventData.turn_order data =? currentTurnOrder s)%Z; cbn [negb].
  - repeat first [apply run_close | run_step | progress cbn [run]].
  - run_step.
    destruct (0 <? List.length (currentTurnWords s))%nat.
    + unfold finish. do 2 run_step.
      destruct (language s =? "en")%string.
      * do 2 run_step.
        destruct (color_at _); [| reflexivity].
        repeat first [apply run_close | run_step | progress cbn [run]].
      * destruct (fetch env s _); [| reflexivity].
        do 2 run_step.
        destruct (color_at _); [| reflexivity].
        repeat first [apply run_close | run_step | progress cbn [run]].
    + repeat first [apply run_close | run_step | progress cbn [run]].
Qed.


End Running.

(** ** Word accumulation *)

Lemma includes_In (xs : list string) (x : string) :
  includes xs x = true <-> In x xs.
Proof.
  unfold includes. rewrite existsb_exists. split.
  - intros [y [Hy Heq]]. apply String.eqb_eq in Heq. now subst.
  - intro H. exists x. split; [assumption | apply String.eqb_refl].
Qed.


Lemma accumulate_cons (open : list string) (w : Word.t) (ws : list Word.t) :
  accumulate open (w :: ws) = accumulate (accumulate open [w]) ws.
Proof. reflexivity. Qed.

Lemma accumulate_seen (open : list string) (ws : list Word.t) :
  (forall w, In w ws -> In (Word.text w) open) ->
  accumulate open ws = open.
Proof.
  induction ws as [| w ws IH]; intro H; [reflexivity |].
  rewrite accumulate_cons.
  assert (Hw : accumulate open [w] = open).
  { unfold accumulate. cbn [fold_left].
    assert (Hin : includes open (Word.text w) = true)
      by (apply includes_In, H; now left).
    rewrite Hin. now rewrite andb_false_r. }
  rewrite Hw. apply IH. intros w' Hw'. apply H. now right.
Qed.

Lemma with_words_same (s : Store) : with_words s (currentTurnWords s) = s.
Proof. destruct s; reflexivity. Qed.

(** C9: an event for the open turn that carries only final words already in
    the open-turn word list, and does not end the turn, leaves the refs as
    they were: the transcript, the open-turn words and the open turn order
    are unchanged, and the handler completes without any request. *)
Theorem C9_seen_words_leave_state_unchanged
    (env : Env) (s : Store) (data : TurnEventData.t) :
  TurnEventData.turn_order data = currentTurnOrder s ->
  (forall w, In w (event_words data) ->
     Word.word_is_final w = true /\ In (Word.text w) (currentTurnWords s)) ->
  TurnEventData.end_of_turn data = false ->
  run env (handleTurnEvent data) s = (s, Fulfilled tt).
Proof.
  intros Horder Hseen Hend.
  rewrite run_handleTurnEvent. unfold step, boundary_step, close_step.
  rewrite Horder, Z.eqb_refl, Hend. cbn [andb].
  rewrite accumulate_seen by (intros w Hw; apply Hseen, Hw).
  now rewrite with_words_same.
Qed.

Lemma C9_witness :
  run never (handleTurnEvent (event 0 false [final_word "A"; final_word "A"])) open_turn_A
  = (open_turn_A, Fulfilled tt).
Proof.
  apply C9_seen_words_leave_state_unchanged.
  - reflexivity.
  - intros w [Hw | [Hw | []]]; subst w; split; try reflexivity; now left.
  - reflexivity.
Defined.

(** ** Single events *)

Lemma settles_fetch (env : Env) (s : Store) (req : Request) :
  settles env -> exists o, fetch env s req = Some o.
Proof.
  intro H. destruct (fetch env s req) as [o |] eqn:E.
  - now exists o.
  - now apply H in E.
Qed.

Lemma accumulate_two (wa wb : Word.t) :
  Word.word_is_final wa = true -> Word.word_is_final wb = true ->
  Word.text wa <> Word.text wb ->
  accumulate [] [wa; wb] = [Word.text wa; Word.text wb].
Proof.
  intros Ha Hb Hneq. unfold accumulate, includes. cbn.
  rewrite Ha, Hb. cbn.
  apply String.eqb_neq in Hneq. rewrite String.eqb_sym in Hneq.
  now rewrite Hneq.
Qed.

(** C5, counterexample: in Spanish, with a translation request that is
    never settled, the handler of the event with turn order 0, [end_of_turn]
    set and the final words A and B is left suspended: no segment is
    produced and the open-turn state is not reset. *)
Lemma C5_counterexample :
  run never (handleTurnEvent (event 0 true [final_word "A"; final_word "B"]))
    (initial "es")
  = ({| transcript := []; currentTurnWords := ["A"; "B"]; currentTurnOrder := 0;
        colorIndex := 1; language := "es" |}, Pending).
Proof. reflexivity. Qed.

(** C5, as the code has it: from the initial state, the single event with
    turn order 0, [end_of_turn] set and the two final words A and B (of
    different texts) is handled to completion, when the language is English
    (no translation is requested) or every translation request is settled,
    with exactly one segment in the transcript, of turn 0 and text "A B",
    and with the open-turn state reset. *)
Theorem C5_explicit_close
    (env : Env) (lang : string) (data : TurnEventData.t) (wa wb : Word.t) :
  lang = "en" \/ settles env ->
  TurnEventData.turn_order data = 0%Z ->
  TurnEventData.end_of_turn data = true ->
  TurnEventData.words data = Some [wa; wb] ->
  Word.word_is_final wa = true ->
  Word.word_is_final wb = true ->
  Word.text wa <> Word.text wb ->
  exists s' seg,
    run env (handleTurnEvent data) (initial lang) = (s', Fulfilled tt) /\
    transcript s' = [seg] /\
    TranscriptSegment.turn seg = 0%Z /\
    TranscriptSegment.text seg = Word.text wa ++ " " ++ Word.text wb /\
    currentTurnWords s' = [] /\
    currentTurnOrder s' = (-1)%Z.
Proof.
  intros Hready Horder Hend Hwords Ha Hb Hneq.
  rewrite run_handleTurnEvent. unfold step, boundary_step, close_step.
  unfold event_words. rewrite Horder, Hend, Hwords.
  cbn [initial currentTurnOrder currentTurnWords Z.eqb List.length Nat.ltb Nat.leb].
  cbn [open_turn with_words currentTurnWords].
  rewrite (accumulate_two wa wb Ha Hb Hneq).
  cbn [andb List.length Nat.ltb Nat.leb].
  set (s1 := with_words _ _). unfold finish.
  change (language s1) with lang.
  change (color_at (colorIndex s1)) with (Some "text-emerald-700").
  destruct (String.eqb_spec lang "en") as [Hen | Hen].
  - eexists; eexists. split; [reflexivity |]. repeat split.
  - destruct Hready as [Hl | Hsettles]; [contradiction |].
    match goal with |- context [fetch env s1 ?req] =>
      destruct (settles_fetch env s1 req Hsettles) as [o Ho]; rewrite Ho
    end.
    eexists; eexists. split; [reflexivity |]. repeat split.
Qed.

Lemma echo_settles : settles echo.
Proof. intros s req. discriminate. Qed.

Lemma C5_witness :
  exists s' seg,
    run echo (handleTurnEvent (event 0 true [final_word "A"; final_word "B"]))
      (initial "es") = (s', Fulfilled tt) /\
    transcript s' = [seg] /\
    TranscriptSegment.turn seg = 0%Z /\
    TranscriptSegment.text seg = "A B" /\
    currentTurnWords s' = [] /\
    currentTurnOrder s' = (-1)%Z.
Proof.
  apply (C5_explicit_close echo "es"
           (event 0 true [final_word "A"; final_word "B"])
           (final_word "A") (final_word "B"));
    try reflexivity.
  - right. exact echo_settles.
  - discriminate.
Defined.

Lemma accumulate_one (w : Word.t) :
  Word.word_is_final w = true -> accumulate [] [w] = [Word.text w].
Proof. intro H. unfold accumulate. cbn. now rewrite H. Qed.

(** C6, counterexample: in Spanish, with a translation request that is
    never settled, the handler of the event of turn 1 is left suspended at
    the turn boundary: no segment of turn 0 is produced, and the word A
    stays in the open-turn words. *)
Lemma C6_counterexample :
  handleAll never [event 0 false [final_word "A"]; event 1 false [final_word "B"]]
    (initial "es")
  = {| transcript := []; currentTurnWords := ["A"]; currentTurnOrder := 0;
       colorIndex := 1; language := "es" |} /\
  snd (run never (handleTurnEvent (event 1 false [final_word "B"]))
         (handleAll never [event 0 false [final_word "A"]] (initial "es")))
  = Pending.
Proof. split; reflexivity. Qed.

(** C6, as the code has it: from the initial state, an event of turn 0 with
    the final word A and no [end_of_turn], followed by an event of turn 1
    with the final word B, the two handled one after the other, when the
    language is English (no translation is requested) or every translation
    request is settled: nothing is in the transcript after the first event,
    and after the second the transcript starts with a segment of turn 0 and
    text "A"; any segment after it is of turn 1. *)
Theorem C6_boundary_by_turn_order_jump
    (env : Env) (lang : string) (e0 e1 : TurnEventData.t) (wa wb : Word.t) :
  lang = "en" \/ settles env ->
  TurnEventData.turn_order e0 = 0%Z ->
  TurnEventData.end_of_turn e0 = false ->
  TurnEventData.words e0 = Some [wa] ->
  Word.word_is_final wa = true ->
  TurnEventData.turn_order e1 = 1%Z ->
  TurnEventData.words e1 = Some [wb] ->
  Word.word_is_final wb = true ->
  transcript (handleAll env [e0] (initial lang)) = [] /\
  exists seg0 rest,
    transcript (handleAll env [e0; e1] (initial lang)) = seg0 :: rest /\
    TranscriptSegment.turn seg0 = 0%Z /\
    TranscriptSegment.text seg0 = Word.text wa /\
    forall seg, In seg rest -> TranscriptSegment.turn seg = 1%Z.
Proof.
  intros Hready Ho0 Hend0 Hw0 Ha Ho1 Hw1 Hb.
  assert (H0 : run env (handleTurnEvent e0) (initial lang) =
               (with_words (open_turn (initial lang) 0) [Word.text wa], Fulfilled tt)).
  { rewrite run_handleTurnEvent. unfold step, boundary_step, close_step, event_words.
    rewrite Ho0, Hend0, Hw0. cbn [initial currentTurnOrder currentTurnWords Z.eqb
                                  List.length Nat.ltb Nat.leb open_turn].
    now rewrite (accumulate_one wa Ha). }
  cbn [handleAll]. rewrite H0. cbn [fst]. split; [reflexivity |].
  set (s0 := with_words _ _).
  rewrite run_handleTurnEvent. unfold step, boundary_step, event_words.
  rewrite Ho1, Hw1.
  change (currentTurnOrder s0) with 0%Z. change (currentTurnWords s0) with [Word.text wa].
  cbn [Z.eqb List.length Nat.ltb Nat.leb]. unfold finish.
  change (language s0) with lang.
  change (color_at _) with (Some "text-violet-700").
  assert (Hclose : forall seg0 : TranscriptSegment.t,
    TranscriptSegment.turn seg0 = 0%Z ->
    TranscriptSegment.text seg0 = Word.text wa ->
    exists seg0' rest,
      transcript (fst (close_step env e1
        (with_words (open_turn (with_segment s0 seg0) 1)
           (accumulate [] [wb])))) = seg0' :: rest /\
      TranscriptSegment.turn seg0' = 0%Z /\
      TranscriptSegment.text seg0' = Word.text wa /\
      forall seg, In seg rest -> TranscriptSegment.turn seg = 1%Z).
  { intros seg0 Hturn Htext. rewrite (accumulate_one wb Hb).
    set (s1 := with_words _ _). unfold close_step, finish.
    change (language s1) with lang.
    change (currentTurnWords s1) with [Word.text wb].
    change (color_at (colorIndex s1)) with (Some "text-rose-700").
    exists seg0.
    destruct (TurnEventData.end_of_turn e1); cbn [andb List.length Nat.ltb Nat.leb].
    - destruct (String.eqb_spec lang "en") as [Hen | Hen].
      + eexists. split; [reflexivity |]. repeat split; try assumption.
        intros seg [Hs | []]. now subst seg.
      + destruct Hready as [Hl | Hsettles]; [contradiction |].
        match goal with |- context [fetch env s1 ?req] =>
          destruct (settles_fetch env s1 req Hsettles) as [o Ho]; rewrite Ho
        end.
        eexists. split; [reflexivity |]. repeat split; try assumption.
        intros seg [Hs | []]. now subst seg.
    - exists []. split; [reflexivity |]. repeat split; try assumption.
      intros seg []. }
  destruct (String.eqb_spec lang "en") as [Hen | Hen].
  - apply Hclose; reflexivity.
  - destruct Hready as [Hl | Hsettles]; [contradiction |].
    match goal with |- context [fetch env s0 ?req] =>
      destruct (settles_fetch env s0 req Hsettles) as [o Ho]; rewrite Ho
    end.
    apply Hclose; reflexivity.
Qed.

Lemma C6_witness :
  transcript (handleAll echo [event 0 false [final_word "A"]] (initial "es")) = [] /\
  exists seg0 rest,
    transcript (handleAll echo [event 0 false [final_word "A"];
                                event 1 false [final_word "B"]] (initial "es"))
    = seg0 :: rest /\
    TranscriptSegment.turn seg0 = 0%Z /\
    TranscriptSegment.text seg0 = "A" /\
    forall seg, In seg rest -> TranscriptSegment.turn seg = 1%Z.
Proof.
  apply (C6_boundary_by_turn_order_jump echo "es"
           (event 0 false [final_word "A"]) (event 1 false [final_word "B"])
           (final_word "A") (final_word "B"));
    try reflexivity.
  right. exact echo_settles.
Defined.

(** ** Translation *)

Lemma step_language (env : Env) (data : TurnEventData.t) (s : Store) :
  language (fst (step env data s)) = language s.
Proof.
  unfold step, boundary_step, close_step, finish.
  repeat
    match goal with
    | |- context [if ?b then _ else _] => destruct b
    | |- context [match fetch ?e ?st ?r with _ => _ end] => destruct (fetch e st r)
    | |- context [match color_at ?i with _ => _ end] => destruct (color_at i)
    | _ => progress cbn [fst language with_words with_segment open_turn close_turn]
    end; reflexivity.
Qed.

Lemma finish_cases (env : Env) (s : Store) (color_index : Z)
    (avg : JS.number) (ws : list Word.t) :
  let r := finish env s (join " " (currentTurnWords s)) color_index avg ws in
  (fst r = s /\ stopped env s (snd r)) \/
  (exists seg, segment_of env s seg /\ r = (with_segment s seg, Fulfilled tt)).
Proof.
  unfold finish, stopped, segment_of, translated.
  destruct (language s =? "en")%string eqn:Hlang.
  - destruct (color_at color_index) as [c |].
    + right. eexists. split; [| reflexivity]. cbn. auto.
    + left. cbn. repeat split; discriminate.
  - destruct (fetch env s _) as [o |] eqn:Hf.
    + destruct (color_at color_index) as [c |].
      * right. eexists. split; [| reflexivity]. cbn. eauto 7.
      * left. cbn. repeat split; discriminate.
    + left. cbn. repeat split; [discriminate | eauto].
Qed.

Lemma length_pos_nonempty {A : Type} (l : list A) :
  (0 <? List.length l)%nat = true <-> l <> [].
Proof.
  destruct l; cbn; split; intro H; try reflexivity; try discriminate.
  now contradiction H.
Qed.

Lemma length_zero_empty {A : Type} (l : list A) :
  (0 <? List.length l)%nat = false <-> l = [].
Proof. destruct l; cbn; split; intro H; try reflexivity; discriminate. Qed.

Lemma boundary_ok (env : Env) (data : TurnEventData.t) (s : Store) :
  boundary_spec env data s (boundary_step env data s).
Proof.
  unfold boundary_step.
  destruct (Z.eqb_spec (TurnEventData.turn_order data) (currentTurnOrder s)) as [Heq | Hneq].
  - now apply boundary_same.
  - destruct (0 <? List.length (currentTurnWords s))%nat eqn:Hlen.
    + apply length_pos_nonempty in Hlen.
      destruct (finish_cases env s
                  (Z.rem (colorIndex s - 1 + colors_length) colors_length)
                  (avgConfidence (event_words data)) [])
        as [[Hs Hstop] | [seg [Hseg Hr]]].
      * destruct (finish _ _ _ _ _ _) as [s' o]. cbn [fst snd] in Hs, Hstop. subst s'.
        destruct o as [[] | msg |].
        -- now destruct Hstop as [Hne _].
        -- now apply boundary_stopped.
        -- now apply boundary_stopped.
      * cbv zeta in Hr. rewrite Hr. now apply boundary_pushed.
    + apply length_zero_empty in Hlen. now apply boundary_open.
Qed.

Lemma close_ok (env : Env) (data : TurnEventData.t) (s : Store) :
  close_spec env data s (close_step env data s).
Proof.
  unfold close_step.
  destruct (TurnEventData.end_of_turn data) eqn:Hend; cbn [andb].
  - destruct (0 <? List.length (currentTurnWords s))%nat eqn:Hlen.
    + apply length_pos_nonempty in Hlen.
      destruct (finish_cases env s (colorIndex s)
                  (avgConfidence (event_words data)) (event_words data))
        as [[Hs Hstop] | [seg [Hseg Hr]]].
      * destruct (finish _ _ _ _ _ _) as [s' o]. cbn [fst snd] in Hs, Hstop. subst s'.
        destruct o as [[] | msg |].
        -- now destruct Hstop as [Hne _].
        -- now apply close_stopped.
        -- now apply close_stopped.
      * cbv zeta in Hr. rewrite Hr. now apply close_pushed.
    + apply length_zero_empty in Hlen. apply close_none. now right.
  - apply close_none. now left.
Qed.








Lemma segment_of_needs_response (env : Env) (s : Store) (seg : TranscriptSegment.t) :
  (language s =? "en")%string = false ->
  (forall s' req, fetch env s' req = None) ->
  ~ segment_of env s seg.
Proof.
  intros Hlang Hnone (_ & _ & [[Hen _] | [_ [o [Ho _]]]]).
  - congruence.
  - rewrite Hnone in Ho. discriminate.
Qed.

Lemma step_without_response (env : Env) (data : TurnEventData.t) (s : Store) :
  (language s =? "en")%string = false ->
  (forall s' req, fetch env s' req = None) ->
  transcript (fst (step env data s)) = transcript s.
Proof.
  intros Hlang Hnone. unfold step.
  assert (Hclose : forall s1, (language s1 =? "en")%string = false ->
            transcript (fst (close_step env data s1)) = transcript s1).
  { intros s1 Hl1.
    destruct (close_ok env data s1) as [Hn | o Hend Hne Hstop | seg Hend Hne Hseg];
      try reflexivity.
    now destruct (segment_of_needs_response env s1 seg Hl1 Hnone). }
  destruct (boundary_ok env data s) as [Hsame | Hneq Hempty | o Hneq Hne Hstop | seg Hneq Hne Hseg].
  - now rewrite Hclose.
  - now rewrite Hclose.
  - destruct Hstop as [Hnf _].
    destruct o as [[] | msg |]; [now contradiction Hnf | reflexivity | reflexivity].
  - now destruct (segment_of_needs_response env s seg Hlang Hnone).
Qed.

Lemma step_pending (env : Env) (data : TurnEventData.t) (s : Store) :
  snd (step env data s) = Pending ->
  (language s =? "en")%string = false /\ exists s' req, fetch env s' req = None.
Proof.
  unfold step.
  assert (Hclose : forall s1, language s1 = language s ->
            snd (close_step env data s1) = Pending ->
            (language s =? "en")%string = false /\ exists s' req, fetch env s' req = None).
  { intros s1 Hl1.
    destruct (close_ok env data s1) as [Hn | o Hend Hne [_ Hstop] | seg Hend Hne Hseg];
      cbn [snd]; try discriminate.
    intro Ho. destruct (Hstop Ho) as [Hl [req Hreq]].
    rewrite Hl1 in Hl. eauto. }
  destruct (boundary_ok env data s) as [Hsame | Hneq Hempty | o Hneq Hne [Hnf Hstop] | seg Hneq Hne Hseg].
  - now apply Hclose.
  - now apply Hclose.
  - destruct o as [[] | msg |]; cbn [snd]; try discriminate.
    + now contradiction Hnf.
    + intros _. destruct (Hstop eq_refl) as [Hl [req Hreq]]. eauto.
  - now apply Hclose.
Qed.

(** What a handler appends: segments that close an open turn, each with the
    translation that was attached when it was created. *)
Lemma step_appends (env : Env) (data : TurnEventData.t) (s : Store) :
  exists added,
    transcript (fst (step env data s)) = (transcript s ++ added)%list /\
    forall seg, In seg added ->
      exists s0, language s0 = language s /\ segment_of env s0 seg.
Proof.
  unfold step.
  assert (Hclose : forall s1 kept,
    language s1 = language s ->
    (forall seg, In seg kept ->
       exists s0, language s0 = language s /\ segment_of env s0 seg) ->
    transcript s1 = (transcript s ++ kept)%list ->
    exists added,
      transcript (fst (close_step env data s1)) = (transcript s ++ added)%list /\
      forall seg, In seg added ->
        exists s0, language s0 = language s /\ segment_of env s0 seg).
  { intros s1 kept Hl1 Hkept Hs1.
    destruct (close_ok env data s1) as [Hnone | o Hend Hne Hstop | seg Hend Hne Hseg];
      cbn [fst]; try (now exists kept).
    exists (kept ++ [seg])%list.
    cbn [transcript close_turn with_segment]. rewrite Hs1, app_assoc.
    split; [reflexivity |].
    intros seg' Hin. apply in_app_or in Hin. destruct Hin as [Hin | [<- | []]].
    - now apply Hkept.
    - now exists s1. }
  destruct (boundary_ok env data s) as [Hsame | Hneq Hempty | o Hneq Hne Hstop | seg Hneq Hne Hseg].
  - apply (Hclose _ []); [reflexivity | intros ? [] | cbn; now rewrite app_nil_r].
  - apply (Hclose _ []); [reflexivity | intros ? [] | cbn; now rewrite app_nil_r].
  - destruct Hstop as [Hnf _].
    destruct o as [[] | msg |]; [now contradiction Hnf | |];
      (exists []; split; [cbn; now rewrite app_nil_r | intros ? []]).
  - apply (Hclose _ [seg]); [reflexivity | | reflexivity].
    intros seg' [<- | []]. now exists s.
Qed.

(** C2, counterexample: in Spanish, with a translation request that is never
    settled, the handler of an event that ends turn 0 is left suspended
    with nothing appended; the events that follow append nothing either. *)
Lemma C2_counterexample :
  run never (handleTurnEvent (event 0 true [final_word "A"])) (initial "es")
  = ({| transcript := []; currentTurnWords := ["A"]; currentTurnOrder := 0;
        colorIndex := 1; language := "es" |}, Pending) /\
  transcript
    (handleAll never
       [event 0 true [final_word "A"]; event 1 true [final_word "B"];
        event 2 true [final_word "C"]] (initial "es")) = [].
Proof. split; reflexivity. Qed.

(** C2, as the code has it: the handler awaits the translation before it
    appends the segment. It is left suspended only on a translation request
    that is not settled, which cannot happen in English (no request is
    made) nor once every request is settled; in another language every
    segment that a handler appends carries the result of a settled request,
    and as long as no request is settled, no event appends a segment. *)
Theorem C2_translation_is_awaited
    (env : Env) (s : Store) (data : TurnEventData.t) (events : list TurnEventData.t) :
  ((language s =? "en")%string = true ->
   snd (run env (handleTurnEvent data) s) <> Pending) /\
  (settles env -> snd (run env (handleTurnEvent data) s) <> Pending) /\
  ((language s =? "en")%string = false ->
   exists added,
     transcript (fst (run env (handleTurnEvent data) s)) = (transcript s ++ added)%list /\
     forall seg, In seg added ->
       exists s0 o,
         fetch env s0 (translate_request (TranscriptSegment.text seg) s0) = Some o /\
         TranscriptSegment.translated_text seg
         = Some (translation_result (TranscriptSegment.text seg) o)) /\
  ((language s =? "en")%string = false ->
   (forall s' req, fetch env s' req = None) ->
   transcript (handleAll env events s) = transcript s).
Proof.
  split; [| split; [| split]]; cycle 2.
  - intro Hlang. rewrite run_handleTurnEvent.
    destruct (step_appends env data s) as [added [Htr Hadded]].
    exists added. split; [assumption |].
    intros seg Hin. destruct (Hadded seg Hin) as [s0 [Hl0 (_ & _ & Htrans)]].
    destruct Htrans as [[Hen _] | [_ [o [Ho Htr']]]].
    + rewrite Hl0 in Hen. congruence.
    + now exists s0, o.
  - intros Hlang Hnone. revert s Hlang.
    induction events as [| e rest IH]; intros s Hlang; [reflexivity |].
    cbn [handleAll]. rewrite run_handleTurnEvent.
    rewrite IH by now rewrite step_language.
    now apply step_without_response.
  - intros Hen Hp. rewrite run_handleTurnEvent in Hp.
    apply step_pending in Hp. destruct Hp as [Hl _]. congruence.
  - intros Hsettles Hp. rewrite run_handleTurnEvent in Hp.
    apply step_pending in Hp. destruct Hp as [_ [s' [req Hreq]]].
    now apply (Hsettles s' req).
Qed.

Lemma C2_witness :
  snd (run never (handleTurnEvent (event 0 true [final_word "A"])) (initial "en"))
    <> Pending /\
  snd (run echo (handleTurnEvent (event 0 true [final_word "A"])) (initial "es"))
    <> Pending /\
  (exists added,
     transcript (fst (run echo (handleTurnEvent (event 0 true [final_word "A"]))
                        (initial "es"))) = (transcript (initial "es") ++ added)%list /\
     forall seg, In seg added ->
       exists s0 o,
         fetch echo s0 (translate_request (TranscriptSegment.text seg) s0) = Some o /\
         TranscriptSegment.translated_text seg
         = Some (translation_result (TranscriptSegment.text seg) o)) /\
  transcript (handleAll never [event 0 true [final_word "A"];
                               event 1 true [final_word "B"]] (initial "es"))
  = transcript (initial "es").
Proof.
  split; [| split; [| split]].
  - apply (proj1 (C2_translation_is_awaited never (initial "en")
                    (event 0 true [final_word "A"]) [])).
    reflexivity.
  - apply (proj1 (proj2 (C2_translation_is_awaited echo (initial "es")
                           (event 0 true [final_word "A"]) []))).
    intros s req. discriminate.
  - apply (proj1 (proj2 (proj2 (C2_translation_is_awaited echo (initial "es")
                                  (event 0 true [final_word "A"]) [])))).
    reflexivity.
  - apply (proj2 (proj2 (proj2 (C2_translation_is_awaited never (initial "es")
                                  (event 0 true [final_word "A"]) _)))).
    + reflexivity.
    + intros s' req. reflexivity.
Defined.

(** ** Order of the segments *)

Lemma StronglySorted_snoc (l : list Z) (x : Z) :
  StronglySorted Z.lt l -> Forall (fun t => t < x)%Z l ->
  StronglySorted Z.lt (l ++ [x]).
Proof.
  induction l as [| a l IH]; intros Hs Hl; cbn.
  - constructor; constructor.
  - inversion Hs as [| ? ? Hs' Ha]; subst. inversion Hl as [| ? ? Hax Hl']; subst.
    constructor; [now apply IH |].
    apply Forall_app. split; [assumption | now constructor].
Qed.

Lemma StronglySorted_lt_NoDup (l : list Z) :
  StronglySorted Z.lt l -> NoDup l.
Proof.
  induction 1 as [| a l Hs IH Ha]; constructor; [| assumption].
  intro Hin. rewrite Forall_forall in Ha. specialize (Ha a Hin). lia.
Qed.

Lemma turns_snoc (segs : list TranscriptSegment.t) (seg : TranscriptSegment.t) :
  turns (segs ++ [seg]) = (turns segs ++ [TranscriptSegment.turn seg])%list.
Proof. unfold turns. now rewrite map_app. Qed.

Lemma closed_turns_stay_closed_cons (data : TurnEventData.t) (rest : list TurnEventData.t) :
  closed_turns_stay_closed (data :: rest) = true ->
  (forall later, In later rest ->
     (TurnEventData.turn_order data <= TurnEventData.turn_order later)%Z /\
     (TurnEventData.end_of_turn data = true ->
      (TurnEventData.turn_order data < TurnEventData.turn_order later)%Z)) /\
  closed_turns_stay_closed rest = true.
Proof.
  cbn [closed_turns_stay_closed]. intro H. apply andb_prop in H. destruct H as [Hall Hrest].
  split; [| assumption].
  intros later Hin. rewrite forallb_forall in Hall. specialize (Hall later Hin).
  destruct (TurnEventData.end_of_turn data).
  - apply Z.ltb_lt in Hall. split; [lia | auto].
  - apply Z.leb_le in Hall. split; [lia | discriminate].
Qed.

Section OneEvent.

Variables (env : Env) (data : TurnEventData.t) (rest : list TurnEventData.t).

Hypothesis later_orders :
  forall later, In later rest ->
    (TurnEventData.turn_order data <= TurnEventData.turn_order later)%Z /\
    (TurnEventData.end_of_turn data = true ->
     (TurnEventData.turn_order data < TurnEventData.turn_order later)%Z).

Lemma close_ordered (s : Store) :
  StronglySorted Z.lt (turns (transcript s)) ->
  Forall (fun t => t < TurnEventData.turn_order data)%Z (turns (transcript s)) ->
  currentTurnOrder s = TurnEventData.turn_order data ->
  ordered_before rest (fst (close_step env data s)).
Proof.
  intros Hsorted Hbelow Hcur.
  assert (Hkeep : ordered_before rest s).
  { repeat split.
    - assumption.
    - intros later Hin. destruct (later_orders later Hin) as [Hle _].
      eapply Forall_impl; [| exact Hbelow]. cbn. intros; lia.
    - intros later Hin. destruct (later_orders later Hin) as [Hle _]. lia.
    - now rewrite Hcur. }
  destruct (close_ok env data s) as [Hn | o Hend Hne Hstop | seg Hend Hne Hseg];
    cbn [fst]; try assumption.
  destruct Hseg as [Hturn _]. rewrite Hcur in Hturn.
  unfold ordered_before. cbn [transcript currentTurnWords close_turn with_segment].
  rewrite turns_snoc, Hturn. split; [| split].
  - now apply StronglySorted_snoc.
  - intros later Hin. destruct (later_orders later Hin) as [_ Hlt]. specialize (Hlt Hend).
    apply Forall_app. split.
    + eapply Forall_impl; [| exact Hbelow]. cbn. intros; lia.
    + constructor; [assumption | constructor].
  - intro Hne'. now contradiction Hne'.
Qed.

Lemma step_ordered (s : Store) :
  ordered_before (data :: rest) s ->
  ordered_before rest (fst (step env data s)).
Proof.
  intros (Hsorted & Hbelow & Hopen). unfold step.
  pose proof (Hbelow data (or_introl eq_refl)) as Hdata.
  destruct (boundary_ok env data s) as [Hsame | Hneq Hempty | o Hneq Hne Hstop | seg Hneq Hne Hseg].
  - apply close_ordered; cbn; auto.
  - apply close_ordered; cbn; auto.
  - assert (Hs : ordered_before rest s).
    { repeat split; try assumption.
      - intros later Hin. apply Hbelow. now right.
      - intros later Hin. apply (proj1 (Hopen H)). now right.
      - now apply Hopen. }
    destruct Hstop as [Hnf _].
    destruct o as [[] | msg |]; [now contradiction Hnf | exact Hs | exact Hs].
  - destruct Hseg as [Hturn _]. destruct (Hopen Hne) as [Hle Hcur].
    specialize (Hle data (or_introl eq_refl)).
    apply close_ordered; cbn [transcript currentTurnOrder with_words open_turn with_segment];
      rewrite ?turns_snoc, ?Hturn.
    + now apply StronglySorted_snoc.
    + apply Forall_app. split; [assumption |].
      constructor; [lia | constructor].
    + reflexivity.
Qed.

End OneEvent.

Lemma handleAll_ordered (env : Env) (events : list TurnEventData.t) (s : Store) :
  closed_turns_stay_closed events = true ->
  ordered_before events s ->
  StronglySorted Z.lt (turns (transcript (handleAll env events s))).
Proof.
  revert s. induction events as [| data rest IH]; intros s Hev Hinv.
  - exact (proj1 Hinv).
  - apply closed_turns_stay_closed_cons in Hev. destruct Hev as [Hlater Hrest].
    cbn [handleAll]. rewrite run_handleTurnEvent.
    apply IH; [assumption |]. now apply step_ordered.
Qed.

Lemma initial_ordered (events : list TurnEventData.t) (lang : string) :
  ordered_before events (initial lang).
Proof.
  repeat split; cbn; try constructor; now intros.
Qed.

(** C1, counterexample: two events of turn 0, each with [end_of_turn] set,
    are in non-decreasing turn order and give two segments of turn 0. *)
Lemma C1_counterexample :
  non_decreasing [event 0 true [final_word "A"]; event 0 true [final_word "B"]] = true /\
  turns (transcript
           (handleAll echo [event 0 true [final_word "A"]; event 0 true [final_word "B"]]
              (initial "es"))) = [0; 0]%Z /\
  ~ StronglySorted Z.lt [0; 0]%Z /\
  count_occ Z.eq_dec [0; 0]%Z 0%Z = 2%nat.
Proof.
  repeat split.
  intro H. inversion H as [| ? ? _ Hall]; subst.
  inversion Hall as [| ? ? Hlt _]; subst. lia.
Qed.

(** Handlers that overlap: turn 0 is ended by its event, whose handler is
    suspended on the translation; the event of turn 1 arrives and its
    handler is suspended in turn; the two requests are then settled in
    order. The second handler reads the open turn order after the first has
    reset it, and pushes a segment of turn -1 after the segment of turn 0. *)
Example overlapping_handlers :
  turns (transcript (refs
    (occurrences (fun _ => 0%Z)
       [Deliver (event 0 true [final_word "A"]);
        Deliver (event 1 true [final_word "B"]);
        Settle 0 (Responded true 200 (Some "a"));
        Settle 0 (Responded true 200 (Some "a"));
        Settle 0 (Responded true 200 (Some "b"))]
       {| refs := initial "es"; waiting := [] |})))
  = [0; -1; 1]%Z.
Proof. reflexivity. Qed.

(** C1, as the code has it: when the events are handled one after the
    other, their turn orders never decrease and no event carries the turn
    order of an earlier event that had [end_of_turn] set, the segments
    produced from the initial state are in strictly increasing turn order,
    so that no turn order has more than one segment; this holds whether the
    translations are settled or left pending for ever. *)
Theorem C1_segments_strictly_increasing
    (env : Env) (lang : string) (events : list TurnEventData.t) :
  closed_turns_stay_closed events = true ->
  StronglySorted Z.lt (turns (transcript (handleAll env events (initial lang)))) /\
  forall t, (count_occ Z.eq_dec
               (turns (transcript (handleAll env events (initial lang)))) t <= 1)%nat.
Proof.
  intro Hev.
  assert (Hs : StronglySorted Z.lt (turns (transcript (handleAll env events (initial lang)))))
    by (apply handleAll_ordered; [assumption | apply initial_ordered]).
  split; [assumption |].
  apply NoDup_count_occ. now apply StronglySorted_lt_NoDup.
Qed.

Lemma C1_witness :
  StronglySorted Z.lt (turns (transcript (handleAll echo four_turns (initial "es")))) /\
  forall t, (count_occ Z.eq_dec
               (turns (transcript (handleAll echo four_turns (initial "es")))) t <= 1)%nat.
Proof.
  apply (C1_segments_strictly_increasing echo "es" four_turns). reflexivity.
Defined.

(** ** Deduplication of final words *)

Lemma accumulate_snoc_one (open : list string) (w : Word.t) :
  accumulate open [w] =
  if Word.word_is_final w && negb (includes open (Word.text w))
  then (open ++ [Word.text w])%list else open.
Proof. reflexivity. Qed.

Lemma accumulate_keeps (open : list string) (ws : list Word.t) (x : string) :
  In x open -> In x (accumulate open ws).
Proof.
  revert open. induction ws as [| w ws IH]; intros open Hin; [assumption |].
  rewrite accumulate_cons. apply IH. rewrite accumulate_snoc_one.
  destruct (_ && _); [apply in_or_app; now left | assumption].
Qed.

Lemma accumulate_has_final (open : list string) (ws : list Word.t) (w : Word.t) :
  In w ws -> Word.word_is_final w = true ->
  In (Word.text w) (accumulate open ws).
Proof.
  revert open. induction ws as [| w' ws IH]; intros open Hin Hfinal; [destruct Hin |].
  rewrite accumulate_cons. destruct Hin as [-> | Hin]; [| now apply IH].
  apply accumulate_keeps. rewrite accumulate_snoc_one, Hfinal. cbn [andb].
  destruct (includes open (Word.text w)) eqn:Hinc; cbn [negb].
  - now apply includes_In.
  - apply in_or_app. right. now left.
Qed.


Lemma final_texts_In (data : TurnEventData.t) (x : string) :
  In x (final_texts data) ->
  exists w, In w (event_words data) /\ Word.word_is_final w = true /\ Word.text w = x.
Proof.
  unfold final_texts. fold (event_words data). intro H.
  apply in_map_iff in H. destruct H as [w [Hx Hw]].
  apply filter_In in Hw. destruct Hw as [Hin Hfinal]. now exists w.
Qed.


Lemma color_at_in_range (i : Z) :
  (0 <= i < colors_length)%Z -> exists c, color_at i = Some c.
Proof.
  unfold colors_length. cbn. intro H.
  assert (Hi : (i = 0 \/ i = 1 \/ i = 2 \/ i = 3 \/ i = 4 \/ i = 5)%Z) by lia.
  destruct Hi as [-> | [-> | [-> | [-> | [-> | ->]]]]]; eexists; reflexivity.
Qed.

(** * Properties of the encoder *)

(** ** Mantissas and their number of digits *)

Local Open Scope Z_scope.

Lemma digits2_size (p : positive) : digits2_pos p = Pos.size p.
Proof. induction p as [p IH | p IH |]; cbn; now rewrite ?IH. Qed.

Lemma digits_bounds (p : positive) :
  2 ^ (Zpos (digits2_pos p) - 1) <= Zpos p < 2 ^ Zpos (digits2_pos p).
Proof.
  rewrite digits2_size. split.
  - pose proof (Pos.size_le p) as H.
    apply Pos2Z.pos_le_pos in H. rewrite Pos2Z.inj_pow in H.
    change (Z.pos p~0) with (2 * Z.pos p) in H.
    replace (Z.pos (Pos.size p)) with (Z.succ (Z.pos (Pos.size p) - 1)) in H by lia.
    rewrite Z.pow_succ_r in H by lia. lia.
  - pose proof (Pos.size_gt p) as H.
    apply Pos2Z.pos_lt_pos in H. now rewrite Pos2Z.inj_pow in H.
Qed.

Lemma digits_unique (p : positive) (d : Z) :
  2 ^ (d - 1) <= Zpos p < 2 ^ d -> Zpos (digits2_pos p) = d.
Proof.
  intros [Hlo Hhi]. pose proof (digits_bounds p) as [Hlo' Hhi'].
  assert (Hd : 0 < d).
  { destruct (Z.lt_ge_cases 0 d) as [H | H]; [assumption |].
    assert (2 ^ d <= 2 ^ 0) by (apply Z.pow_le_mono_r; lia). cbn in *. lia. }
  destruct (Z.lt_trichotomy (Zpos (digits2_pos p)) d) as [H | [H | H]]; [| assumption |].
  - assert (2 ^ Zpos (digits2_pos p) <= 2 ^ (d - 1)) by (apply Z.pow_le_mono_r; lia). lia.
  - assert (2 ^ d <= 2 ^ (Zpos (digits2_pos p) - 1)) by (apply Z.pow_le_mono_r; lia). lia.
Qed.

Lemma iter_xO (m k : positive) : Zpos (Pos.iter xO m k) = Zpos m * 2 ^ Zpos k.
Proof.
  induction k as [| k IH] using Pos.peano_ind.
  - cbn. lia.
  - rewrite Pos.iter_succ, Pos2Z.inj_succ, Z.pow_succ_r by lia.
    change (Z.pos (Pos.iter xO m k)~0) with (2 * Z.pos (Pos.iter xO m k)). lia.
Qed.

Lemma digits_mul_pow2 (m q : positive) (k : Z) :
  0 <= k -> Zpos q = Zpos m * 2 ^ k ->
  Zpos (digits2_pos q) = Zpos (digits2_pos m) + k.
Proof.
  intros Hk Hq. apply digits_unique. rewrite Hq.
  pose proof (digits_bounds m) as [Hlo Hhi].
  replace (Zpos (digits2_pos m) + k - 1) with ((Zpos (digits2_pos m) - 1) + k) by lia.
  rewrite !Z.pow_add_r by lia.
  assert (0 < 2 ^ k) by (apply Z.pow_pos_nonneg; lia).
  split; nia.
Qed.

(** ** Shifting a mantissa that ends in zeros is exact *)

Lemma iter_pos_nat {A : Type} (f : A -> A) (n : positive) (x : A) :
  iter_pos f n x = Nat.iter (Pos.to_nat n) f x.
Proof.
  revert x. induction n as [n IH | n IH |]; intro x; cbn [iter_pos].
  - rewrite !IH, Pos2Nat.inj_xI, <- Nat.iter_succ_r, <- Nat.iter_add.
    f_equal. lia.
  - rewrite !IH, Pos2Nat.inj_xO, <- Nat.iter_add. f_equal. lia.
  - reflexivity.
Qed.

Lemma shr_1_even (q : positive) :
  shr_1 {| shr_m := Zpos q~0; shr_r := false; shr_s := false |}
  = {| shr_m := Zpos q; shr_r := false; shr_s := false |}.
Proof. reflexivity. Qed.

Lemma shr_nat_exact (n : nat) (q m : positive) :
  Zpos m = Zpos q * 2 ^ Z.of_nat n ->
  Nat.iter n shr_1 {| shr_m := Zpos m; shr_r := false; shr_s := false |}
  = {| shr_m := Zpos q; shr_r := false; shr_s := false |}.
Proof.
  revert m. induction n as [| n IH]; intros m Hm.
  - cbn in *. f_equal. lia.
  - rewrite Nat.iter_succ_r.
    rewrite Nat2Z.inj_succ, Z.pow_succ_r in Hm by lia.
    destruct m as [m | m |]; try lia.
    rewrite shr_1_even. apply IH. lia.
Qed.

Lemma shr_exact (q m : positive) (e n : Z) :
  0 <= n -> Zpos m = Zpos q * 2 ^ n ->
  shr {| shr_m := Zpos m; shr_r := false; shr_s := false |} e n
  = ({| shr_m := Zpos q; shr_r := false; shr_s := false |}, e + n).
Proof.
  intros Hn Hm. unfold shr. destruct n as [| p | p]; try lia.
  - cbn in Hm. rewrite Z.add_0_r. do 2 f_equal. lia.
  - rewrite iter_pos_nat. f_equal. apply shr_nat_exact.
    now rewrite positive_nat_Z.
Qed.

(** ** Rounding to binary64 a mantissa that fits is exact *)

Lemma fexp_normal (x : Z) : -1021 <= x -> fexp JS.prec JS.emax x = x - 53.
Proof. intro H. unfold fexp, emin, JS.prec, JS.emax. lia. Qed.

Lemma binary_round_aux_exact (s : bool) (p q m : positive) (e t : Z) :
  Zpos (digits2_pos p) <= 53 ->
  53 - Zpos (digits2_pos p) <= t ->
  Zpos m = Zpos p * 2 ^ t ->
  Zpos q = Zpos p * 2 ^ (53 - Zpos (digits2_pos p)) ->
  -1074 <= e + t - (53 - Zpos (digits2_pos p)) <= 971 ->
  binary_round_aux JS.prec JS.emax s (Zpos m) e loc_Exact
  = S754_finite s q (e + t - (53 - Zpos (digits2_pos p))).
Proof.
  set (d := Zpos (digits2_pos p)). intros Hd Ht Hm Hq He.
  assert (Hdm : Zpos (digits2_pos m) = d + t)
    by (apply (digits_mul_pow2 p m t); [lia | assumption]).
  assert (Hdq : Zpos (digits2_pos q) = 53)
    by (rewrite (digits_mul_pow2 p q (53 - d)); fold d; [lia | lia | assumption]).
  assert (Hmq : Zpos m = Zpos q * 2 ^ (d + t - 53)).
  { rewrite Hm, Hq, <- Z.mul_assoc, <- Z.pow_add_r by lia. do 2 f_equal. lia. }
  unfold binary_round_aux, shr_fexp.
  cbn [Zdigits2 shr_record_of_loc]. rewrite Hdm, fexp_normal by lia.
  replace (d + t + e - 53 - e) with (d + t - 53) by lia.
  rewrite (shr_exact q m e (d + t - 53)) by (lia || assumption).
  cbn [shr_m loc_of_shr_record round_nearest_even Zdigits2 shr_record_of_loc].
  rewrite Hdq, fexp_normal by lia.
  replace (53 + (e + (d + t - 53)) - 53 - (e + (d + t - 53))) with 0 by lia.
  cbn [shr shr_m].
  replace (e + (d + t - 53) <=? JS.emax - JS.prec) with true
    by (symmetry; apply Z.leb_le; unfold JS.emax, JS.prec; lia).
  f_equal. lia.
Qed.

(** ** Numbers of the form [p * 2^e] *)

Lemma normal_mantissa (p : positive) :
  Zpos (digits2_pos p) <= 53 ->
  Zpos (Z.to_pos (Zpos p * 2 ^ (53 - Zpos (digits2_pos p))))
  = Zpos p * 2 ^ (53 - Zpos (digits2_pos p)).
Proof.
  intro H. apply Z2Pos.id.
  assert (0 < 2 ^ (53 - Zpos (digits2_pos p))) by (apply Z.pow_pos_nonneg; lia). lia.
Qed.

(** A binary32 sample: at most 24 digits, exponent between -149 and 104. *)
Lemma float32_finite (s : bool) (m : positive) (e : Z) :
  valid_binary 24 128 (S754_finite s m e) = true ->
  Zpos (digits2_pos m) <= 24 /\ -149 <= e <= 104.
Proof.
  cbn [valid_binary]. unfold bounded, canonical_mantissa, fexp, emin.
  intro H. apply andb_prop in H. destruct H as [Hc He].
  apply Z.eqb_eq in Hc. apply Z.leb_le in He. lia.
Qed.

(** Widening a binary32 sample to binary64 keeps its value. *)
Lemma of_float32_normal (s : bool) (m : positive) (e : Z) :
  valid_binary 24 128 (S754_finite s m e) = true ->
  JS.of_float32 (S754_finite s m e) = JS.normal s m e.
Proof.
  intro Hv. destruct (float32_finite s m e Hv) as [Hd He].
  unfold JS.of_float32, binary_round, JS.normal.
  set (d := Zpos (digits2_pos m)) in *.
  rewrite fexp_normal by lia. unfold shl_align.
  replace (d + e - 53 - e) with (Z.neg (Z.to_pos (53 - d))) by lia.
  rewrite (binary_round_aux_exact s m (Z.to_pos (Zpos m * 2 ^ (53 - d))) _ _ (53 - d)).
  - f_equal. fold d. lia.
  - fold d. lia.
  - fold d. lia.
  - rewrite iter_xO. do 2 f_equal. lia.
  - fold d. apply normal_mantissa. fold d. lia.
  - fold d. lia.
Qed.

Lemma digits_mul_bounds (p1 p2 : positive) :
  Zpos (digits2_pos p1) + Zpos (digits2_pos p2) - 1
  <= Zpos (digits2_pos (p1 * p2))
  <= Zpos (digits2_pos p1) + Zpos (digits2_pos p2).
Proof.
  pose proof (digits_bounds p1) as [Hlo1 Hhi1].
  pose proof (digits_bounds p2) as [Hlo2 Hhi2].
  pose proof (digits_bounds (p1 * p2)) as [Hlo Hhi].
  rewrite Pos2Z.inj_mul in Hlo, Hhi.
  set (d1 := Zpos (digits2_pos p1)) in *. set (d2 := Zpos (digits2_pos p2)) in *.
  set (d := Zpos (digits2_pos (p1 * p2))) in *.
  assert (H1 : 0 < d1) by (unfold d1; lia). assert (H2 : 0 < d2) by (unfold d2; lia).
  assert (H0 : 0 < d) by (unfold d; lia).
  split.
  - destruct (Z.le_gt_cases (d1 + d2 - 1) d) as [H | H]; [assumption | exfalso].
    assert (2 ^ d <= 2 ^ (d1 - 1 + (d2 - 1))) by (apply Z.pow_le_mono_r; lia).
    rewrite Z.pow_add_r in * by lia. nia.
  - destruct (Z.le_gt_cases d (d1 + d2)) as [H | H]; [assumption | exfalso].
    assert (2 ^ (d1 + d2) <= 2 ^ (d - 1)) by (apply Z.pow_le_mono_r; lia).
    rewrite Z.pow_add_r in * by lia. nia.
Qed.

(** The product of two such numbers is exact when the product of the
    mantissas has at most 53 digits. *)
Lemma mul_normal (s1 s2 : bool) (p1 p2 : positive) (e1 e2 : Z) :
  Zpos (digits2_pos p1) + Zpos (digits2_pos p2) <= 53 ->
  -1021 <= e1 + e2 ->
  e1 + e2 + Zpos (digits2_pos p1) + Zpos (digits2_pos p2) <= 1024 ->
  JS.mul (JS.normal s1 p1 e1) (JS.normal s2 p2 e2)
  = JS.normal (xorb s1 s2) (p1 * p2) (e1 + e2).
Proof.
  intros Hd Hlo Hhi.
  pose proof (digits_mul_bounds p1 p2) as Hdm.
  unfold JS.mul, JS.normal. cbn [SFmul].
  set (d1 := Zpos (digits2_pos p1)) in *. set (d2 := Zpos (digits2_pos p2)) in *.
  set (d := Zpos (digits2_pos (p1 * p2))) in *.
  assert (H1 : 0 < d1) by (unfold d1; lia). assert (H2 : 0 < d2) by (unfold d2; lia).
  rewrite (binary_round_aux_exact _ (p1 * p2)
             (Z.to_pos (Zpos (p1 * p2) * 2 ^ (53 - d))) _ _ ((53 - d1) + (53 - d2)));
    fold d.
  - f_equal. lia.
  - lia.
  - lia.
  - rewrite Pos2Z.inj_mul, !normal_mantissa by (fold d1 d2; lia). fold d1 d2.
    rewrite Z.pow_add_r by lia. rewrite Pos2Z.inj_mul. ring.
  - apply normal_mantissa. fold d. lia.
  - lia.
Qed.

Lemma shiftl_mul_pow2_sub (a b k : Z) :
  0 <= k -> Z.shiftl (a * 2 ^ k) (b - k) = Z.shiftl a b.
Proof.
  intro Hk. rewrite <- Z.shiftl_mul_pow2 by assumption.
  rewrite Z.shiftl_shiftl by assumption. f_equal. lia.
Qed.

(** The integral part of [p * 2^e]. *)
Lemma truncate_normal (s : bool) (p : positive) (e : Z) :
  Zpos (digits2_pos p) <= 53 ->
  JS.truncate (JS.normal s p e) = cond_Zopp s (Z.shiftl (Zpos p) e).
Proof.
  intro Hd. unfold JS.truncate, JS.normal. rewrite normal_mantissa by assumption.
  f_equal.
  replace (e + Zpos (digits2_pos p) - 53) with (e - (53 - Zpos (digits2_pos p))) by lia.
  apply shiftl_mul_pow2_sub. lia.
Qed.

(** Comparing two positive numbers of that form compares their values,
    taken here as integers after scaling both by [2^-a]. *)
Lemma compare_normal (p1 p2 : positive) (e1 e2 a : Z) :
  Zpos (digits2_pos p1) <= 53 -> Zpos (digits2_pos p2) <= 53 ->
  a <= e1 -> a <= e2 ->
  SFcompare (JS.normal false p1 e1) (JS.normal false p2 e2)
  = Some (Zpos p1 * 2 ^ (e1 - a) ?= Zpos p2 * 2 ^ (e2 - a)).
Proof.
  intros Hd1 Hd2 Ha1 Ha2. unfold JS.normal. cbn [SFcompare]. f_equal.
  pose proof (digits_bounds p1) as [Hlo1 Hhi1].
  pose proof (digits_bounds p2) as [Hlo2 Hhi2].
  pose proof (normal_mantissa p1 Hd1) as Hm1.
  pose proof (normal_mantissa p2 Hd2) as Hm2.
  set (d1 := Zpos (digits2_pos p1)) in *. set (d2 := Zpos (digits2_pos p2)) in *.
  assert (H1 : 0 < d1) by (unfold d1; lia). assert (H2 : 0 < d2) by (unfold d2; lia).
  set (u := e1 - a). set (v := e2 - a).
  assert (Hu : 0 <= u) by (unfold u; lia). assert (Hv : 0 <= v) by (unfold v; lia).
  assert (Hpu : 0 < 2 ^ u) by (apply Z.pow_pos_nonneg; lia).
  assert (Hpv : 0 < 2 ^ v) by (apply Z.pow_pos_nonneg; lia).
  destruct (Z.compare_spec (e1 + d1 - 53) (e2 + d2 - 53)) as [Heq | Hlt | Hgt].
  - change (Pos.compare_cont Eq ?x ?y) with (Zpos x ?= Zpos y).
    rewrite Hm1, Hm2.
    assert (Hl : d1 + u = d2 + v) by (unfold u, v; lia).
    destruct (Z.le_gt_cases (d1 + u) 53) as [Hsmall | Hbig].
    + replace (53 - d1) with (u + (53 - (d1 + u))) by lia.
      replace (53 - d2) with (v + (53 - (d1 + u))) by lia.
      rewrite !Z.pow_add_r, !Z.mul_assoc by lia.
      symmetry. apply Zmult_compare_compat_r. apply Z.lt_gt, Z.pow_pos_nonneg; lia.
    + assert (Eu : 2 ^ u = 2 ^ (53 - d1) * 2 ^ (d1 + u - 53))
        by (rewrite <- Z.pow_add_r by lia; f_equal; lia).
      assert (Ev : 2 ^ v = 2 ^ (53 - d2) * 2 ^ (d1 + u - 53))
        by (rewrite <- Z.pow_add_r by lia; f_equal; lia).
      rewrite Eu, Ev, !Z.mul_assoc.
      apply Zmult_compare_compat_r. apply Z.lt_gt, Z.pow_pos_nonneg; lia.
  - symmetry. apply Z.compare_lt_iff.
    assert (2 ^ (d1 + u) <= 2 ^ (d2 - 1 + v))
      by (apply Z.pow_le_mono_r; unfold u, v; lia).
    rewrite !Z.pow_add_r in * by lia. nia.
  - symmetry. apply Z.compare_gt_iff.
    assert (2 ^ (d2 + v) <= 2 ^ (d1 - 1 + u))
      by (apply Z.pow_le_mono_r; unfold u, v; lia).
    rewrite !Z.pow_add_r in * by lia. nia.
Qed.

(** ** The two conversions on one sample *)

Lemma lit_1 : JS.lit 1 = JS.normal false 1 0.
Proof. reflexivity. Qed.

Lemma lit_m1 : JS.lit (-1) = JS.normal true 1 0.
Proof. reflexivity. Qed.

Lemma lit_32767 : JS.lit 32767 = JS.normal false 32767 0.
Proof. reflexivity. Qed.

Lemma lit_32768 : JS.lit 32768 = JS.normal false 32768 0.
Proof. reflexivity. Qed.

Lemma lit_m32768 : JS.lit (-32768) = JS.normal true 32768 0.
Proof. reflexivity. Qed.

Lemma lit_0 : JS.lit 0 = S754_zero false.
Proof. reflexivity. Qed.

Lemma lt_normal (p1 p2 : positive) (e1 e2 a : Z) :
  Zpos (digits2_pos p1) <= 53 -> Zpos (digits2_pos p2) <= 53 ->
  a <= e1 -> a <= e2 ->
  JS.lt (JS.normal false p1 e1) (JS.normal false p2 e2)
  = (Zpos p1 * 2 ^ (e1 - a) <? Zpos p2 * 2 ^ (e2 - a)).
Proof.
  intros. unfold JS.lt, SFltb, Z.ltb.
  rewrite (compare_normal p1 p2 e1 e2 a) by assumption.
  reflexivity.
Qed.

(** Among negative numbers the order of the magnitudes is reversed. *)
Lemma lt_normal_neg (p1 p2 : positive) (e1 e2 : Z) :
  JS.lt (JS.normal true p1 e1) (JS.normal true p2 e2)
  = JS.lt (JS.normal false p2 e2) (JS.normal false p1 e1).
Proof.
  unfold JS.lt, SFltb, JS.normal. cbn [SFcompare].
  rewrite (Z.compare_antisym (e1 + _ - 53) (e2 + _ - 53)).
  destruct (e1 + _ - 53 ?= e2 + _ - 53); cbn [CompOpp]; try reflexivity.
  change (Pos.compare_cont Eq ?x ?y) with (Pos.compare x y).
  rewrite (Pos.compare_antisym (Z.to_pos _) (Z.to_pos _)).
  now destruct (Pos.compare _ _).
Qed.

Lemma lt_neg_pos (p1 p2 : positive) (e1 e2 : Z) :
  JS.lt (JS.normal true p1 e1) (JS.normal false p2 e2) = true.
Proof. reflexivity. Qed.

Lemma lt_normal_0 (s : bool) (p : positive) (e : Z) :
  JS.lt (JS.normal s p e) (JS.lit 0) = s.
Proof. now destruct s. Qed.

Lemma Math_min_normal (s1 s2 : bool) (p1 p2 : positive) (e1 e2 : Z) :
  JS.Math_min (JS.normal s1 p1 e1) (JS.normal s2 p2 e2)
  = if JS.lt (JS.normal s2 p2 e2) (JS.normal s1 p1 e1)
    then JS.normal s2 p2 e2 else JS.normal s1 p1 e1.
Proof. reflexivity. Qed.

Lemma Math_max_normal (s1 s2 : bool) (p1 p2 : positive) (e1 e2 : Z) :
  JS.Math_max (JS.normal s1 p1 e1) (JS.normal s2 p2 e2)
  = if JS.lt (JS.normal s1 p1 e1) (JS.normal s2 p2 e2)
    then JS.normal s2 p2 e2 else JS.normal s1 p1 e1.
Proof. reflexivity. Qed.

Lemma lt_one (m : positive) (e : Z) :
  Zpos (digits2_pos m) <= 53 ->
  JS.lt (JS.normal false m e) (JS.normal false 1 0) = Pcm.below_one m e.
Proof.
  intro Hd. rewrite (lt_normal m 1 e 0 (Z.min e 0)); [| assumption | now cbn | lia | lia].
  unfold Pcm.below_one. f_equal. now rewrite Z.mul_1_l.
Qed.

Lemma ToInt16_small (x : JS.number) :
  -32768 <= JS.truncate x <= 32767 -> JS.ToInt16 x = JS.truncate x.
Proof.
  intro H. unfold JS.ToInt16.
  destruct (Z.le_gt_cases 0 (JS.truncate x)) as [Hpos | Hneg].
  - rewrite Z.mod_small by lia.
    destruct (Z.leb_spec 32768 (JS.truncate x)); lia.
  - replace (JS.truncate x mod 65536) with (JS.truncate x + 65536).
    + destruct (Z.leb_spec 32768 (JS.truncate x + 65536)); lia.
    + apply Z.mod_unique with (q := -1); lia.
Qed.

(** Below 1, the scaled magnitude stays below the scale. *)
Lemma below_one_shiftl (m c : positive) (e : Z) :
  Pcm.below_one m e = true ->
  0 <= Z.shiftl (Zpos (m * c)) e < Zpos c.
Proof.
  unfold Pcm.below_one. intro H. apply Z.ltb_lt in H.
  destruct (Z.le_gt_cases 0 e) as [He | He].
  - rewrite Z.min_r in H by lia. rewrite Z.sub_0_r in H.
    change (2 ^ (- 0)) with 1 in H.
    assert (0 < 2 ^ e) by (apply Z.pow_pos_nonneg; lia).
    assert (1 <= Zpos m * 2 ^ e) by nia. lia.
  - rewrite Z.min_l in H by lia. rewrite Z.sub_diag, Z.mul_1_r in H.
    rewrite Z.shiftl_div_pow2 by lia.
    assert (Hp : 0 < 2 ^ (- e)) by (apply Z.pow_pos_nonneg; lia).
    split.
    + apply Z.div_pos; lia.
    + apply Z.div_lt_upper_bound; [assumption |]. rewrite Pos2Z.inj_mul. nia.
Qed.

(** The scaled sample, when its magnitude is below 1. *)
Lemma ToInt16_scaled (s : bool) (m c : positive) (e : Z) :
  Zpos (digits2_pos m) <= 24 -> -149 <= e <= 104 ->
  Zpos (digits2_pos c) <= 16 -> Zpos c <= 32768 -> (s = false -> Zpos c <= 32767) ->
  Pcm.below_one m e = true ->
  JS.ToInt16 (JS.mul (JS.normal s m e) (JS.normal false c 0))
  = cond_Zopp s (Z.shiftl (Zpos (m * c)) e).
Proof.
  intros Hd He Hc Hc' Hc'' Hb.
  rewrite mul_normal by lia.
  rewrite xorb_false_r, Z.add_0_r.
  pose proof (digits_mul_bounds m c) as Hmc.
  pose proof (below_one_shiftl m c e Hb) as Hsh.
  rewrite ToInt16_small; rewrite truncate_normal by lia; [reflexivity |].
  destruct s; cbn [cond_Zopp]; [lia |]. specialize (Hc'' eq_refl). lia.
Qed.

(** [float32To16LEPCM] on a finite sample, in integer arithmetic. *)
Lemma pcm_sample_finite (s : bool) (m : positive) (e : Z) :
  valid_binary 24 128 (S754_finite s m e) = true ->
  Pcm.pcm_sample (JS.of_float32 (S754_finite s m e)) = Pcm.encode_finite s m e.
Proof.
  intro Hv. destruct (float32_finite s m e Hv) as [Hd He].
  rewrite of_float32_normal by assumption.
  unfold Pcm.pcm_sample, Pcm.encode_finite. cbv zeta.
  rewrite lit_1, lit_m1, Math_min_normal.
  destruct s.
  - rewrite lt_neg_pos, Math_max_normal, lt_normal_neg, lt_one by lia.
    destruct (Pcm.below_one m e) eqn:Hb.
    + rewrite lt_normal_0, lit_32768.
      apply (ToInt16_scaled true m 32768 e); try assumption; cbn; try lia; discriminate.
    + reflexivity.
  - rewrite lt_one by lia.
    destruct (Pcm.below_one m e) eqn:Hb.
    + rewrite Math_max_normal, lt_neg_pos, lt_normal_0, lit_32767.
      apply (ToInt16_scaled false m 32767 e); try assumption; cbn; lia.
    + reflexivity.
Qed.

(** The inline conversion of Recorder.vue on a finite sample that is not
    negative: the same value. *)
Lemma pcmData_sample_finite (m : positive) (e : Z) :
  valid_binary 24 128 (S754_finite false m e) = true ->
  Pcm.pcmData_sample (JS.of_float32 (S754_finite false m e))
  = Pcm.encode_finite false m e.
Proof.
  intro Hv. destruct (float32_finite false m e Hv) as [Hd He].
  rewrite of_float32_normal by assumption.
  unfold Pcm.pcmData_sample, Pcm.encode_finite.
  pose proof (digits_mul_bounds m 32767) as Hmc.
  change (Zpos (digits2_pos 32767)) with 15 in Hmc.
  rewrite lit_32767, lit_m32768, mul_normal by (cbn; lia).
  rewrite Z.add_0_r. cbn [xorb].
  rewrite Math_min_normal.
  rewrite (lt_normal (m * 32767) 32767 e 0 (Z.min e 0)) by (cbn; lia).
  assert (Hlt : (Zpos (m * 32767) * 2 ^ (e - Z.min e 0) <? 32767 * 2 ^ (0 - Z.min e 0))
                = Pcm.below_one m e).
  { unfold Pcm.below_one. rewrite Pos2Z.inj_mul.
    destruct (Z.ltb_spec (Zpos m * 2 ^ (e - Z.min e 0)) (2 ^ (- Z.min e 0))) as [H | H];
      [apply Z.ltb_lt | apply Z.ltb_ge]; change (0 - Z.min e 0) with (- Z.min e 0); nia. }
  rewrite Hlt.
  destruct (Pcm.below_one m e) eqn:Hb.
  - rewrite Math_max_normal, lt_neg_pos.
    pose proof (below_one_shiftl m 32767 e Hb) as Hsh.
    rewrite ToInt16_small; rewrite truncate_normal by lia; [reflexivity |].
    cbn [cond_Zopp]. lia.
  - reflexivity.
Qed.

(** ** The value that the spec asks for *)

Lemma sample_value_neg_exp (s : bool) (m p : positive) :
  (Pcm.sample_value (S754_finite s m (Zneg p)) == cond_Zopp s (Zpos m) # 2 ^ p)%Q.
Proof.
  unfold Pcm.sample_value.
  change 2%Q with (2 # 1)%Q. rewrite Qpower_decomp_neg_pos.
  rewrite Z.pow_1_l by lia.
  unfold Qeq, Qmult, inject_Z. cbn [Qnum Qden]. lia.
Qed.

Lemma sample_value_nonneg_exp (s : bool) (m : positive) (e : Z) :
  (0 <= e)%Z ->
  (Pcm.sample_value (S754_finite s m e) == inject_Z (cond_Zopp s (Zpos m) * 2 ^ e))%Q.
Proof.
  intro He. unfold Pcm.sample_value.
  rewrite inject_Z_mult, (Zpower_Qpower 2 e He). reflexivity.
Qed.

Lemma below_one_neg_exp (m p : positive) :
  Pcm.below_one m (Zneg p) = (Zpos m <? 2 ^ Zpos p)%Z.
Proof.
  unfold Pcm.below_one. rewrite Z.min_l by lia.
  rewrite Z.sub_diag, Z.mul_1_r. reflexivity.
Qed.

Lemma below_one_nonneg_exp (m : positive) (e : Z) :
  (0 <= e)%Z -> Pcm.below_one m e = false.
Proof.
  intro He. unfold Pcm.below_one. rewrite Z.min_r by lia.
  rewrite Z.sub_0_r. change (2 ^ (- 0))%Z with 1%Z.
  apply Z.ltb_ge.
  assert (0 < 2 ^ e)%Z by (apply Z.pow_pos_nonneg; lia). nia.
Qed.

Lemma Qabs_sample_value_neg_exp (s : bool) (m p : positive) :
  (Qabs (Pcm.sample_value (S754_finite s m (Zneg p))) == Zpos m # 2 ^ p)%Q.
Proof. rewrite sample_value_neg_exp. now destruct s. Qed.

Lemma Qabs_sample_value_nonneg_exp (s : bool) (m : positive) (e : Z) :
  (0 <= e)%Z ->
  (1 <= Qabs (Pcm.sample_value (S754_finite s m e)))%Q.
Proof.
  intro He. rewrite sample_value_nonneg_exp by assumption.
  assert (0 < 2 ^ e)%Z by (apply Z.pow_pos_nonneg; lia).
  unfold Qle, Qabs, inject_Z. cbn [Qnum Qden].
  destruct s; cbn [cond_Zopp]; nia.
Qed.

(** On a finite sample the spec's value, written on rationals, is the one
    written on integers. *)
Lemma encode_spec_finite (s : bool) (m : positive) (e : Z) :
  Pcm.encode_spec (S754_finite s m e) = Pcm.encode_finite s m e.
Proof.
  unfold Pcm.encode_spec, Pcm.encode_finite. cbv zeta.
  destruct (Qlt_le_dec (Qabs (Pcm.sample_value (S754_finite s m e))) 1) as [Hlt | Hge].
  - destruct e as [| p | p].
    + exfalso. apply (Qlt_not_le _ _ Hlt), Qabs_sample_value_nonneg_exp. lia.
    + exfalso. apply (Qlt_not_le _ _ Hlt), Qabs_sample_value_nonneg_exp. lia.
    + rewrite Qabs_sample_value_neg_exp in Hlt |- *.
      unfold Qlt in Hlt. cbn [Qnum Qden] in Hlt. rewrite Pos2Z.inj_pow in Hlt.
      rewrite below_one_neg_exp.
      replace (Zpos m <? 2 ^ Zpos p)%Z with true by (symmetry; apply Z.ltb_lt; lia).
      f_equal. rewrite Z.shiftl_div_pow2 by lia.
      unfold Qfloor, Qmult, inject_Z. cbn [Qnum Qden].
      rewrite Pos.mul_1_r, Pos2Z.inj_pow, Pos2Z.inj_mul. reflexivity.
  - replace (Pcm.below_one m e) with false.
    + f_equal. unfold Qfloor, Qmult, inject_Z. cbn [Qnum Qden].
      now rewrite Z.div_1_r.
    + symmetry. destruct e as [| p | p].
      * apply below_one_nonneg_exp. lia.
      * apply below_one_nonneg_exp. lia.
      * rewrite Qabs_sample_value_neg_exp in Hge.
        unfold Qle in Hge. cbn [Qnum Qden] in Hge. rewrite Pos2Z.inj_pow in Hge.
        rewrite below_one_neg_exp. apply Z.ltb_ge. lia.
Qed.

Lemma pcm_sample_spec (f : spec_float) :
  valid_binary 24 128 f = true ->
  Pcm.pcm_sample (JS.of_float32 f) = Pcm.encode_spec f.
Proof.
  destruct f as [s | s | | s m e]; intro Hv.
  - now destruct s.
  - now destruct s.
  - reflexivity.
  - rewrite encode_spec_finite. now apply pcm_sample_finite.
Qed.

Lemma encode_finite_range (s : bool) (m : positive) (e : Z) :
  -32768 <= Pcm.encode_finite s m e <= 32767.
Proof.
  unfold Pcm.encode_finite. destruct (Pcm.below_one m e) eqn:Hb.
  - pose proof (below_one_shiftl m (Pcm.scale s) e Hb) as H.
    destruct s; cbn [cond_Zopp Pcm.scale] in *; lia.
  - destruct s; cbn; lia.
Qed.

Lemma encode_spec_range (f : spec_float) : -32768 <= Pcm.encode_spec f <= 32767.
Proof.
  destruct f as [s | s | | s m e].
  - cbn. lia.
  - destruct s; cbn; lia.
  - cbn. lia.
  - rewrite encode_spec_finite. apply encode_finite_range.
Qed.

(** ** Bytes *)

Lemma bytes_of_int16_little_endian (v : Z) :
  Pcm.bytes_of_int16 v = Pcm.little_endian v.
Proof.
  unfold Pcm.bytes_of_int16, Pcm.little_endian.
  change 255 with (Z.ones 8). rewrite !Z.land_ones by lia.
  rewrite Z.shiftr_div_pow2 by lia. reflexivity.
Qed.

Lemma int16_of_little_endian (v : Z) :
  -32768 <= v <= 32767 ->
  Pcm.int16_of_bytes (v mod 256) ((v / 256) mod 256) = v.
Proof.
  intro H. unfold Pcm.int16_of_bytes.
  assert (Hm : v mod 256 + 256 * ((v / 256) mod 256) = v mod 65536)
    by (change 65536 with (256 * 256); rewrite Z.rem_mul_r by lia; reflexivity).
  rewrite Hm.
  destruct (Z.le_gt_cases 0 v) as [Hpos | Hneg].
  - rewrite Z.mod_small by lia. destruct (Z.leb_spec 32768 v); lia.
  - replace (v mod 65536) with (v + 65536)
      by (apply Z.mod_unique with (q := -1); lia).
    destruct (Z.leb_spec 32768 (v + 65536)); lia.
Qed.

Lemma length_Uint8Array_of_buffer (pcm : list Z) :
  List.length (Pcm.Uint8Array_of_buffer pcm) = (2 * List.length pcm)%nat.
Proof.
  unfold Pcm.Uint8Array_of_buffer.
  induction pcm as [| v pcm IH]; cbn [flat_map List.length app Pcm.bytes_of_int16];
    [reflexivity |].
  rewrite IH. lia.
Qed.

Lemma float32To16LEPCM_spec (block : list spec_float) :
  Forall (fun f => valid_binary 24 128 f = true) block ->
  Pcm.float32To16LEPCM block
  = flat_map (fun f => Pcm.little_endian (Pcm.encode_spec f)) block.
Proof.
  unfold Pcm.float32To16LEPCM, Pcm.Uint8Array_of_buffer. cbv zeta.
  induction 1 as [| f block Hf _ IH]; cbn [map flat_map]; [reflexivity |].
  now rewrite IH, bytes_of_int16_little_endian, pcm_sample_spec.
Qed.

Lemma float32To16LEPCM_app (block more : list spec_float) :
  Pcm.float32To16LEPCM (block ++ more)
  = (Pcm.float32To16LEPCM block ++ Pcm.float32To16LEPCM more)%list.
Proof.
  unfold Pcm.float32To16LEPCM, Pcm.Uint8Array_of_buffer. cbv zeta.
  now rewrite map_app, flat_map_app.
Qed.

(** C7: on a block of binary32 samples the encoder gives, sample after
    sample, the two bytes, low byte first, of the signed 16-bit value that
    the spec describes (the sample clamped to [-1, 1], scaled by 32768 when
    negative and by 32767 otherwise); that value is within the signed 16-bit
    range, so the bytes read back to it; the output has twice as many bytes
    as the block has samples; and the output for a block followed by another
    is the output for the first followed by the output for the second: no
    state is carried from one call to the next. *)
Theorem C7_encoder_clamps_scales_serializes (block : list spec_float) :
  Forall (fun f => valid_binary 24 128 f = true) block ->
  Pcm.float32To16LEPCM block
  = flat_map (fun f => Pcm.little_endian (Pcm.encode_spec f)) block /\
  Forall (fun f =>
            -32768 <= Pcm.encode_spec f <= 32767 /\
            Pcm.int16_of_bytes (Pcm.encode_spec f mod 256)
              ((Pcm.encode_spec f / 256) mod 256) = Pcm.encode_spec f) block /\
  Forall (fun b => 0 <= b < 256) (Pcm.float32To16LEPCM block) /\
  List.length (Pcm.float32To16LEPCM block) = (2 * List.length block)%nat /\
  forall more,
    Pcm.float32To16LEPCM (block ++ more)
    = (Pcm.float32To16LEPCM block ++ Pcm.float32To16LEPCM more)%list.
Proof.
  intro Hv. split; [| split; [| split; [| split]]].
  - now apply float32To16LEPCM_spec.
  - apply Forall_forall. intros f _. split.
    + apply encode_spec_range.
    + apply int16_of_little_endian, encode_spec_range.
  - rewrite float32To16LEPCM_spec by assumption.
    apply Forall_flat_map, Forall_forall. intros f _.
    unfold Pcm.little_endian. repeat constructor; apply Z.mod_pos_bound; lia.
  - unfold Pcm.float32To16LEPCM. cbv zeta.
    now rewrite length_Uint8Array_of_buffer, length_map.
  - intro more. apply float32To16LEPCM_app.
Qed.

Lemma C7_witness :
  Pcm.float32To16LEPCM [Pcm.minus_one; Pcm.plus_half; S754_zero false]
  = [0; 128; 255; 63; 0; 0] /\
  List.length (Pcm.float32To16LEPCM [Pcm.minus_one; Pcm.plus_half; S754_zero false])
  = 6%nat.
Proof.
  assert (Hv : Forall (fun f => valid_binary 24 128 f = true)
                 [Pcm.minus_one; Pcm.plus_half; S754_zero false])
    by (repeat constructor).
  destruct (C7_encoder_clamps_scales_serializes _ Hv) as (Hbytes & _ & _ & Hlen & _).
  split; [| exact Hlen].
  rewrite Hbytes. reflexivity.
Defined.

(** ** The Recorder's inline conversion *)

Lemma pcmData_sample_not_negative (f : spec_float) :
  valid_binary 24 128 f = true ->
  JS.lt (JS.of_float32 f) (JS.lit 0) = false ->
  Pcm.pcmData_sample (JS.of_float32 f) = Pcm.pcm_sample (JS.of_float32 f).
Proof.
  destruct f as [s | s | | s m e]; intros Hv Hlt.
  - now destruct s.
  - destruct s; [discriminate | reflexivity].
  - reflexivity.
  - rewrite of_float32_normal, lt_normal_0 in Hlt by assumption. subst s.
    now rewrite pcmData_sample_finite, pcm_sample_finite.
Qed.

(** C10, counterexample: on the sample -1.0 the inline conversion of
    Recorder.vue gives the bytes of -32767 and the encoder those of -32768;
    on -0.5 they give -16383 and -16384. *)
Lemma C10_counterexample :
  valid_binary 24 128 Pcm.minus_one = true /\
  Pcm.onaudioprocess_bytes [Pcm.minus_one] = [1; 128] /\
  Pcm.float32To16LEPCM [Pcm.minus_one] = [0; 128] /\
  Pcm.onaudioprocess_bytes [Pcm.minus_one] <> Pcm.float32To16LEPCM [Pcm.minus_one] /\
  Pcm.onaudioprocess_bytes [Pcm.minus_half] <> Pcm.float32To16LEPCM [Pcm.minus_half].
Proof. repeat split; discriminate. Qed.

(** C10, as the code has it: on a block of binary32 samples none of which
    is below zero (for each, [s < 0] is false: zeros, positive samples,
    +Infinity, NaN), the inline conversion of Recorder.vue and
    [float32To16LEPCM] give the same bytes. *)
Theorem C10_same_bytes_when_not_negative (block : list spec_float) :
  Forall (fun f => valid_binary 24 128 f = true /\
                   JS.lt (JS.of_float32 f) (JS.lit 0) = false) block ->
  Pcm.onaudioprocess_bytes block = Pcm.float32To16LEPCM block.
Proof.
  unfold Pcm.onaudioprocess_bytes, Pcm.float32To16LEPCM. cbv zeta.
  intro H. f_equal.
  induction H as [| f block [Hv Hlt] _ IH]; cbn [map]; [reflexivity |].
  now rewrite IH, pcmData_sample_not_negative.
Qed.

Lemma C10_witness :
  Pcm.onaudioprocess_bytes [Pcm.plus_half; S754_zero true; S754_nan; S754_infinity false]
  = Pcm.float32To16LEPCM [Pcm.plus_half; S754_zero true; S754_nan; S754_infinity false].
Proof.
  apply C10_same_bytes_when_not_negative.
  repeat constructor.
Defined.

(** ** The round trip through 16 bits *)






(** * More of the transcript page *)

Local Open Scope string_scope.

(** ** The transcript only grows *)

(** X1: whatever the events and the environment, and from any refs, the
    segments that were in the transcript stay where they were, unchanged:
    handling events only appends. *)
Theorem transcript_append_only
    (env : Env) (events : list TurnEventData.t) (s : Store) :
  exists added, transcript (handleAll env events s) = (transcript s ++ added)%list.
Proof.
  revert s. induction events as [| data rest IH]; intro s.
  - exists []. cbn. now rewrite app_nil_r.
  - cbn [handleAll]. rewrite run_handleTurnEvent.
    destruct (step_appends env data s) as [added1 [H1 _]].
    destruct (IH (fst (step env data s))) as [added2 H2].
    exists (added1 ++ added2)%list. now rewrite H2, H1, app_assoc.
Qed.

(** ** The colour lookup never fails *)

Lemma finish_in_range (env : Env) (s : Store) (text : string) (i : Z)
    (avg : JS.number) (ws : list Word.t) (msg : string) :
  (0 <= i < colors_length)%Z ->
  snd (finish env s text i avg ws) <> Rejected msg /\
  colorIndex (fst (finish env s text i avg ws)) = colorIndex s.
Proof.
  intro Hi. unfold finish.
  destruct (color_at_in_range i Hi) as [c Hc]. rewrite Hc.
  destruct (language s =? "en").
  - split; [discriminate | reflexivity].
  - destruct (fetch env s _); split; try discriminate; reflexivity.
Qed.

Lemma rem_succ_in_range (i : Z) :
  (0 <= i < colors_length)%Z -> (0 <= Z.rem (i + 1) colors_length < colors_length)%Z.
Proof.
  unfold colors_length. cbn. intro H.
  split; [apply Z.rem_nonneg | apply Z.rem_bound_pos]; lia.
Qed.

Lemma rem_pred_in_range (i : Z) :
  (0 <= i < colors_length)%Z ->
  (0 <= Z.rem (i - 1 + colors_length) colors_length < colors_length)%Z.
Proof.
  unfold colors_length. cbn. intro H.
  split; [apply Z.rem_nonneg | apply Z.rem_bound_pos]; lia.
Qed.

Lemma step_color_in_range (env : Env) (data : TurnEventData.t) (s : Store) (msg : string) :
  color_in_range s ->
  snd (step env data s) <> Rejected msg /\ color_in_range (fst (step env data s)).
Proof.
  unfold color_in_range. intro Hs. unfold step.
  assert (Hclose : forall s1, (0 <= colorIndex s1 < colors_length)%Z ->
    snd (close_step env data s1) <> Rejected msg /\
    (0 <= colorIndex (fst (close_step env data s1)) < colors_length)%Z).
  { intros s1 H1. unfold close_step.
    destruct (TurnEventData.end_of_turn data && _); [| split; [discriminate | assumption]].
    destruct (finish_in_range env s1 (join " " (currentTurnWords s1)) (colorIndex s1)
                (avgConfidence (event_words data)) (event_words data) msg H1)
      as [Hnr Hci].
    destruct (finish _ _ _ _ _ _) as [s' [[] | msg' |]]; cbn [fst snd] in *.
    - split; [discriminate |]. cbn. now rewrite Hci.
    - split; [assumption | now rewrite Hci].
    - split; [discriminate | now rewrite Hci]. }
  unfold boundary_step.
  destruct (TurnEventData.turn_order data =? currentTurnOrder s)%Z.
  - now apply Hclose.
  - destruct (0 <? List.length (currentTurnWords s))%nat.
    + destruct (finish_in_range env s (join " " (currentTurnWords s))
                  (Z.rem (colorIndex s - 1 + colors_length) colors_length)
                  (avgConfidence (event_words data)) [] msg (rem_pred_in_range _ Hs))
        as [Hnr Hci].
      destruct (finish _ _ _ _ _ _) as [s' [[] | msg' |]]; cbn [fst snd] in *.
      * apply Hclose. cbn. rewrite Hci. now apply rem_succ_in_range.
      * split; [assumption | now rewrite Hci].
      * split; [discriminate | now rewrite Hci].
    + apply Hclose. cbn. now apply rem_succ_in_range.
Qed.

(** X2: after any events handled from the initial state, [colorIndex] is an
    index of [colors], and the handler of one more event does not throw:
    [colors[...].text] is never read on [undefined]. *)
Theorem handler_never_throws
    (env : Env) (lang : string) (events : list TurnEventData.t)
    (data : TurnEventData.t) (msg : string) :
  color_in_range (handleAll env events (initial lang)) /\
  snd (run env (handleTurnEvent data) (handleAll env events (initial lang)))
    <> Rejected msg.
Proof.
  assert (H : forall s, color_in_range s -> color_in_range (handleAll env events s)).
  { induction events as [| e rest IH]; intros s Hs; [assumption |].
    cbn [handleAll]. rewrite run_handleTurnEvent.
    apply IH. now apply (step_color_in_range env e s msg). }
  assert (Hinit : color_in_range (initial lang)) by (unfold color_in_range, colors_length; cbn; lia).
  split; [now apply H |].
  rewrite run_handleTurnEvent. now apply step_color_in_range, H.
Qed.

(** ** Where the words of a segment come from *)

Lemma accumulate_In_inv (open : list string) (ws : list Word.t) (x : string) :
  In x (accumulate open ws) ->
  In x open \/ exists w, In w ws /\ Word.word_is_final w = true /\ Word.text w = x.
Proof.
  revert open. induction ws as [| w ws IH]; intros open Hin; [now left |].
  rewrite accumulate_cons in Hin. apply IH in Hin.
  destruct Hin as [Hin | [w' [Hw' Hx]]].
  - rewrite accumulate_snoc_one in Hin.
    destruct (Word.word_is_final w) eqn:Hfinal; cbn [andb] in Hin; [| now left].
    destruct (negb _); [| now left].
    apply in_app_or in Hin. destruct Hin as [Hin | [<- | []]]; [now left |].
    right. exists w. repeat split; [now left | assumption].
  - right. exists w'. split; [now right | assumption].
Qed.

Lemma final_texts_intro (data : TurnEventData.t) (w : Word.t) :
  In w (event_words data) -> Word.word_is_final w = true ->
  In (Word.text w) (final_texts data).
Proof.
  intros Hin Hfinal. unfold final_texts. fold (event_words data).
  apply in_map, filter_In. now split.
Qed.

Lemma from_turn_more (seen more : list TurnEventData.t) (order : Z) (w : string) :
  from_turn seen order w -> from_turn (seen ++ more) order w.
Proof.
  intros [data [Hin H]]. exists data. split; [apply in_or_app; now left | assumption].
Qed.

Lemma made_of_final_words_more (seen more : list TurnEventData.t)
    (seg : TranscriptSegment.t) :
  made_of_final_words seen seg -> made_of_final_words (seen ++ more) seg.
Proof.
  intros [ws [Htext [Hne Hws]]]. exists ws. repeat split; try assumption.
  intros w Hw. now apply from_turn_more, Hws.
Qed.

Lemma provenance_more (seen more : list TurnEventData.t) (s : Store) :
  provenance seen s -> provenance (seen ++ more) s.
Proof.
  intros [Hopen Hsegs]. split.
  - intros w Hw. now apply from_turn_more, Hopen.
  - eapply Forall_impl; [| exact Hsegs]. intro seg. apply made_of_final_words_more.
Qed.

Section Provenance.

Variables (env : Env) (seen : list TurnEventData.t) (data : TurnEventData.t).

Lemma close_provenance (s : Store) :
  currentTurnOrder s = TurnEventData.turn_order data ->
  provenance (seen ++ [data]) s ->
  provenance (seen ++ [data]) (fst (close_step env data s)).
Proof.
  intros Hcur [Hopen Hsegs].
  destruct (close_ok env data s) as [Hn | o Hend Hne Hstop | seg Hend Hne Hseg];
    cbn [fst]; try (now split).
  destruct Hseg as (Hturn & Htext & _).
  split; cbn [currentTurnWords transcript close_turn with_segment].
  - intros w [].
  - apply Forall_app. split; [assumption |].
    constructor; [| constructor].
    exists (currentTurnWords s). repeat split; try assumption.
    intros w Hw. rewrite Hturn. now apply Hopen.
Qed.

Lemma accumulate_provenance (s : Store) :
  currentTurnOrder s = TurnEventData.turn_order data ->
  provenance (seen ++ [data]) s ->
  provenance (seen ++ [data])
    (with_words s (accumulate (currentTurnWords s) (event_words data))).
Proof.
  intros Hcur [Hopen Hsegs]. split; cbn [currentTurnWords currentTurnOrder transcript with_words];
    [| assumption].
  intros w Hw. apply accumulate_In_inv in Hw.
  destruct Hw as [Hw | [word [Hin [Hfinal <-]]]]; [now apply Hopen |].
  exists data. repeat split.
  - apply in_or_app. right. now left.
  - now symmetry.
  - now apply final_texts_intro.
Qed.

Lemma step_provenance (s : Store) :
  provenance seen s -> provenance (seen ++ [data]) (fst (step env data s)).
Proof.
  intro Hs. pose proof (provenance_more seen [data] s Hs) as [Hopen Hsegs].
  unfold step.
  destruct (boundary_ok env data s) as [Hsame | Hneq Hempty | o Hneq Hne Hstop | seg Hneq Hne Hseg].
  - apply close_provenance; [now symmetry |].
    apply accumulate_provenance; [now symmetry | now split].
  - apply close_provenance; [reflexivity |].
    apply accumulate_provenance; [reflexivity |].
    split; cbn; [intros w [] | assumption].
  - destruct Hstop as [Hnf _].
    destruct o as [[] | msg |]; [now contradiction Hnf | now split | now split].
  - apply close_provenance; [reflexivity |].
    apply accumulate_provenance; [reflexivity |].
    destruct Hseg as (Hturn & Htext & _).
    split; cbn [currentTurnWords transcript open_turn with_segment]; [intros w [] |].
    apply Forall_app. split; [assumption |].
    constructor; [| constructor].
    exists (currentTurnWords s). repeat split; try assumption.
    intros w Hw. rewrite Hturn. now apply Hopen.
Qed.

End Provenance.

Lemma handleAll_provenance (env : Env) (events seen : list TurnEventData.t) (s : Store) :
  provenance seen s -> provenance (seen ++ events) (handleAll env events s).
Proof.
  revert seen s. induction events as [| data rest IH]; intros seen s Hs.
  - now rewrite app_nil_r.
  - cbn [handleAll]. rewrite run_handleTurnEvent.
    replace (seen ++ data :: rest)%list with ((seen ++ [data]) ++ rest)%list
      by (now rewrite <- app_assoc).
    now apply IH, step_provenance.
Qed.

(** X3: after any events handled one after the other from the initial
    state (each handler has completed, or waits for a translation that is
    never settled, before the next event is delivered), every open-turn word
    is a final word of an event of the open turn, and the text of every
    segment joins at least one word, all of them
    final words of events that carry the segment's turn: provisional words
    and words of other turns never reach a segment. *)
Theorem segments_made_of_their_turn_final_words
    (env : Env) (lang : string) (events : list TurnEventData.t) :
  let s := handleAll env events (initial lang) in
  (forall w, In w (currentTurnWords s) ->
     exists data, In data events /\
       TurnEventData.turn_order data = currentTurnOrder s /\
       In w (final_texts data)) /\
  forall seg, In seg (transcript s) ->
    exists ws, TranscriptSegment.text seg = join " " ws /\ ws <> [] /\
      forall w, In w ws ->
        exists data, In data events /\
          TurnEventData.turn_order data = TranscriptSegment.turn seg /\
          In w (final_texts data).
Proof.
  cbv zeta.
  assert (H : provenance ([] ++ events) (handleAll env events (initial lang))).
  { apply handleAll_provenance. split; [intros w [] | constructor]. }
  destruct H as [Hopen Hsegs]. split; [exact Hopen |].
  intros seg Hin. rewrite Forall_forall in Hsegs. exact (Hsegs seg Hin).
Qed.

(** ** Delivering an event twice *)

Lemma accumulate_seen_final (open : list string) (ws : list Word.t) :
  (forall w, In w ws -> Word.word_is_final w = true -> In (Word.text w) open) ->
  accumulate open ws = open.
Proof.
  induction ws as [| w ws IH]; intro H; [reflexivity |].
  rewrite accumulate_cons.
  assert (Hw : accumulate open [w] = open).
  { rewrite accumulate_snoc_one.
    destruct (Word.word_is_final w) eqn:Hfinal; cbn [andb]; [| reflexivity].
    assert (Hin : includes open (Word.text w) = true)
      by (apply includes_In, H; [now left | assumption]).
    now rewrite Hin. }
  rewrite Hw. apply IH. intros w' Hw' Hf. apply H; [now right | assumption].
Qed.

Lemma step_seen (env : Env) (data : TurnEventData.t) (s : Store) :
  TurnEventData.turn_order data = currentTurnOrder s ->
  (forall w, In w (event_words data) -> Word.word_is_final w = true ->
     In (Word.text w) (currentTurnWords s)) ->
  TurnEventData.end_of_turn data = false ->
  step env data s = (s, Fulfilled tt).
Proof.
  intros Horder Hseen Hend. unfold step, boundary_step, close_step.
  rewrite Horder, Z.eqb_refl, Hend. cbn [andb].
  now rewrite accumulate_seen_final, with_words_same.
Qed.

Lemma step_open_event (env : Env) (data : TurnEventData.t) (s : Store) :
  TurnEventData.end_of_turn data = false ->
  (snd (step env data s) <> Fulfilled tt /\ fst (step env data s) = s) \/
  (snd (step env data s) = Fulfilled tt /\
   currentTurnOrder (fst (step env data s)) = TurnEventData.turn_order data /\
   forall w, In w (event_words data) -> Word.word_is_final w = true ->
     In (Word.text w) (currentTurnWords (fst (step env data s)))).
Proof.
  intro Hend. unfold step.
  assert (Hclose : forall s1, close_step env data s1 = (s1, Fulfilled tt))
    by (intro s1; unfold close_step; now rewrite Hend).
  destruct (boundary_ok env data s) as [Hsame | Hneq Hempty | o Hneq Hne Hstop | seg Hneq Hne Hseg];
    rewrite ?Hclose; cbn [fst snd currentTurnOrder currentTurnWords with_words open_turn].
  - right. repeat split; [now symmetry |]. intros w Hw Hf. now apply accumulate_has_final.
  - right. repeat split. intros w Hw Hf. now apply accumulate_has_final.
  - left. destruct Hstop as [Hnf _].
    destruct o as [[] | msg |]; [now contradiction Hnf | |]; split; try discriminate; reflexivity.
  - right. repeat split. intros w Hw Hf. now apply accumulate_has_final.
Qed.

(** X4: when the handler of an event that does not end its turn has run to
    completion, with no other handler in between, and the same event is
    delivered again right after, the second handler completes at once and
    leaves the refs as they were: it makes no translation request, so that
    this holds whatever the translation service would do then. Nothing is
    said when the first handler is left waiting for a translation. *)
Theorem open_event_twice
    (env env' : Env) (data : TurnEventData.t) (s s1 : Store) :
  TurnEventData.end_of_turn data = false ->
  run env (handleTurnEvent data) s = (s1, Fulfilled tt) ->
  run env' (handleTurnEvent data) s1 = (s1, Fulfilled tt).
Proof.
  intros Hend Hrun. rewrite run_handleTurnEvent in Hrun |- *.
  destruct (step_open_event env data s Hend) as [[Hnf _] | [_ [Horder Hseen]]].
  - rewrite Hrun in Hnf. now contradiction Hnf.
  - rewrite Hrun in Horder, Hseen. cbn [fst] in Horder, Hseen.
    now apply step_seen.
Qed.

Lemma open_event_twice_witness :
  run never (handleTurnEvent (event 1 false [final_word "A"]))
    (fst (run echo (handleTurnEvent (event 1 false [final_word "A"])) open_turn_A))
  = (fst (run echo (handleTurnEvent (event 1 false [final_word "A"])) open_turn_A),
     Fulfilled tt).
Proof. apply (open_event_twice echo never _ open_turn_A); reflexivity. Defined.

(** ** What one event appends *)

Ltac side_goal :=
  first
    [ assumption
    | reflexivity
    | cbn; lia
    | match goal with H : In _ [] |- _ => destruct H end
    | match goal with H : In _ [_] |- _ => destruct H as [<- | []]; assumption end ].

Lemma finish_fields (env : Env) (s : Store) (text : string) (i : Z)
    (avg : JS.number) (ws : list Word.t) :
  fst (finish env s text i avg ws) = s \/
  exists seg,
    finish env s text i avg ws = (with_segment s seg, Fulfilled tt) /\
    TranscriptSegment.confidence seg = avg /\
    TranscriptSegment.words seg = ws /\
    TranscriptSegment.timestamp seg = clock env s.
Proof.
  unfold finish.
  destruct (language s =? "en"); [| destruct (fetch env s _); [| now left]];
    (destruct (color_at i); [right; eexists; split; [reflexivity | repeat split] | now left]).
Qed.

Lemma finish_turn (env : Env) (s : Store) (text : string) (i : Z)
    (avg : JS.number) (ws : list Word.t) (seg : TranscriptSegment.t) :
  finish env s text i avg ws = (with_segment s seg, Fulfilled tt) ->
  TranscriptSegment.turn seg = currentTurnOrder s.
Proof.
  unfold finish. intro Hpush.
  destruct (language s =? "en"); [| destruct (fetch env s _); [| discriminate]];
    (destruct (color_at _); [| discriminate]);
    injection Hpush as Hpush; apply app_inv_head in Hpush;
    injection Hpush as <-; reflexivity.
Qed.

(** X5: a handler that runs alone, from the delivery of its event to its
    completion or to the request on which it stays suspended, with no other
    handler and no clearing in between, appends at most two segments, the
    first when the event closes the previous turn and the second when it
    ends its own.
    Each carries as [confidence] the average confidence of the words of that
    event, the segment of the previous turn included; its [words] are empty
    for the segment closed by the turn boundary, and all the words of the
    event, provisional ones included, for the other. *)
Theorem one_event_appends
    (env : Env) (data : TurnEventData.t) (s : Store) :
  exists closed ended,
    transcript (fst (run env (handleTurnEvent data) s))
    = (transcript s ++ closed ++ ended)%list /\
    (List.length closed <= 1)%nat /\ (List.length ended <= 1)%nat /\
    (forall seg, In seg closed ->
       TranscriptSegment.confidence seg = avgConfidence (event_words data) /\
       TranscriptSegment.words seg = [] /\
       TranscriptSegment.turn seg = currentTurnOrder s /\
       TurnEventData.turn_order data <> currentTurnOrder s) /\
    (forall seg, In seg ended ->
       TranscriptSegment.confidence seg = avgConfidence (event_words data) /\
       TranscriptSegment.words seg = event_words data /\
       TranscriptSegment.turn seg = TurnEventData.turn_order data /\
       TurnEventData.end_of_turn data = true).
Proof.
  rewrite run_handleTurnEvent. unfold step.
  assert (Hclose : forall s1 closed,
    currentTurnOrder s1 = TurnEventData.turn_order data ->
    transcript s1 = (transcript s ++ closed)%list ->
    exists ended,
      transcript (fst (close_step env data s1)) = (transcript s ++ closed ++ ended)%list /\
      (List.length ended <= 1)%nat /\
      forall seg, In seg ended ->
        TranscriptSegment.confidence seg = avgConfidence (event_words data) /\
        TranscriptSegment.words seg = event_words data /\
        TranscriptSegment.turn seg = TurnEventData.turn_order data /\
        TurnEventData.end_of_turn data = true).
  { intros s1 closed Hcur Htr. unfold close_step.
    destruct (TurnEventData.end_of_turn data) eqn:Hend; cbn [andb].
    2: { exists []. rewrite app_nil_r. repeat split; side_goal. }
    destruct (0 <? List.length (currentTurnWords s1))%nat.
    2: { exists []. rewrite app_nil_r. repeat split; side_goal. }
    destruct (finish_fields env s1 (join " " (currentTurnWords s1)) (colorIndex s1)
                (avgConfidence (event_words data)) (event_words data))
      as [Hsame | [seg [Hpush [Hc [Hw _]]]]].
    - exists []. rewrite app_nil_r.
      destruct (finish _ _ _ _ _ _) as [s' [[] | msg |]]; cbn [fst] in *; subst s';
        repeat split; side_goal.
    - pose proof (finish_turn env s1 _ _ _ _ seg Hpush) as Hturn.
      rewrite Hpush. exists [seg]. cbn [fst transcript close_turn with_segment].
      rewrite Htr, <- app_assoc. repeat split; try side_goal.
      destruct H as [<- | []]. now rewrite Hturn. }
  unfold boundary_step.
  destruct (Z.eqb_spec (TurnEventData.turn_order data) (currentTurnOrder s)) as [Heq | Hneq].
  - destruct (Hclose (with_words s (accumulate (currentTurnWords s) (event_words data))) [])
      as [ended [Htr [Hlen Hended]]]; [now symmetry | cbn; now rewrite app_nil_r |].
    exists [], ended. refine (conj _ (conj _ (conj _ (conj _ Hended)))); repeat split; side_goal.
  - destruct (0 <? List.length (currentTurnWords s))%nat.
    + destruct (finish_fields env s (join " " (currentTurnWords s))
                  (Z.rem (colorIndex s - 1 + colors_length) colors_length)
                  (avgConfidence (event_words data)) [])
        as [Hsame | [seg [Hpush [Hc [Hw _]]]]].
      * destruct (finish _ _ _ _ _ _) as [s' [[] | msg |]]; cbn [fst] in Hsame; subst s'.
        -- set (s1 := open_turn s _).
           destruct (Hclose (with_words s1 (accumulate (currentTurnWords s1) (event_words data))) [])
             as [ended [Htr [Hlen Hended]]]; [reflexivity | cbn; now rewrite app_nil_r |].
           exists [], ended. refine (conj _ (conj _ (conj _ (conj _ Hended)))); repeat split; side_goal.
        -- exists [], []. cbn [fst app]. rewrite app_nil_r. repeat split; side_goal.
        -- exists [], []. cbn [fst app]. rewrite app_nil_r. repeat split; side_goal.
      * pose proof (finish_turn env s _ _ _ _ seg Hpush) as Hturn.
        rewrite Hpush.
        set (s1 := open_turn (with_segment s seg) _).
        destruct (Hclose (with_words s1 (accumulate (currentTurnWords s1) (event_words data))) [seg])
          as [ended [Htr [Hlen Hended]]]; [reflexivity | reflexivity |].
        exists [seg], ended. refine (conj _ (conj _ (conj _ (conj _ Hended)))); repeat split; side_goal.
    + set (s1 := open_turn s _).
      destruct (Hclose (with_words s1 (accumulate (currentTurnWords s1) (event_words data))) [])
        as [ended [Htr [Hlen Hended]]]; [reflexivity | cbn; now rewrite app_nil_r |].
      exists [], ended. refine (conj _ (conj _ (conj _ (conj _ Hended)))); repeat split; side_goal.
Qed.

(** * More of the encoder and of the inline conversion *)

Local Open Scope Z_scope.

Lemma below_shiftl (n c : positive) (e : Z) :
  Inline.below n c e = true -> 0 <= Z.shiftl (Zpos n) e < Zpos c.
Proof.
  unfold Inline.below. intro H. apply Z.ltb_lt in H.
  destruct (Z.le_gt_cases 0 e) as [He | He].
  - rewrite Z.min_r in H by lia. rewrite Z.sub_0_r in H.
    change (2 ^ (- 0)) with 1 in H.
    rewrite Z.shiftl_mul_pow2 by lia.
    assert (0 < 2 ^ e) by (apply Z.pow_pos_nonneg; lia). nia.
  - rewrite Z.min_l in H by lia. rewrite Z.sub_diag, Z.mul_1_r in H.
    rewrite Z.shiftl_div_pow2 by lia.
    assert (Hp : 0 < 2 ^ (- e)) by (apply Z.pow_pos_nonneg; lia).
    split.
    + apply Z.div_pos; lia.
    + apply Z.div_lt_upper_bound; [assumption | nia].
Qed.

Lemma lt_below (n c : positive) (e : Z) :
  Zpos (digits2_pos n) <= 53 -> Zpos (digits2_pos c) <= 53 ->
  JS.lt (JS.normal false n e) (JS.normal false c 0) = Inline.below n c e.
Proof.
  intros Hn Hc. rewrite (lt_normal n c e 0 (Z.min e 0)); [| assumption | assumption | lia | lia].
  reflexivity.
Qed.

(** The callback on a finite sample, in integer arithmetic. *)
Lemma pcmData_sample_inline (s : bool) (m : positive) (e : Z) :
  valid_binary 24 128 (S754_finite s m e) = true ->
  Pcm.pcmData_sample (JS.of_float32 (S754_finite s m e)) = Inline.finite s m e.
Proof.
  intro Hv. destruct (float32_finite s m e Hv) as [Hd He].
  rewrite of_float32_normal by assumption.
  unfold Pcm.pcmData_sample, Inline.finite.
  pose proof (digits_mul_bounds m 32767) as Hmc.
  change (Zpos (digits2_pos 32767)) with 15 in Hmc.
  rewrite lit_32767, lit_m32768, mul_normal by (cbn; lia).
  rewrite Z.add_0_r, xorb_false_r, Math_min_normal.
  destruct s; cbn [Pcm.scale].
  - rewrite lt_neg_pos, Math_max_normal, lt_normal_neg, lt_below by (cbn; lia).
    destruct (Inline.below (m * 32767) 32768 e) eqn:Hb; [| reflexivity].
    pose proof (below_shiftl _ _ _ Hb) as Hsh.
    rewrite ToInt16_small; rewrite truncate_normal by lia; [reflexivity |].
    cbn [cond_Zopp]. lia.
  - rewrite lt_below by (cbn; lia).
    destruct (Inline.below (m * 32767) 32767 e) eqn:Hb; [| reflexivity].
    rewrite Math_max_normal, lt_neg_pos.
    pose proof (below_shiftl _ _ _ Hb) as Hsh.
    rewrite ToInt16_small; rewrite truncate_normal by lia; [reflexivity |].
    cbn [cond_Zopp]. lia.
Qed.

Lemma clamped_floor (x : Q) (n : Z) (d : positive) (c : Z) :
  (x == n # d)%Q ->
  Qfloor (if Qlt_le_dec (x * 32767) (inject_Z c) then (x * 32767)%Q else inject_Z c) =
  if n * 32767 <? c * Zpos d then (n * 32767) / Zpos d else c.
Proof.
  intro Hx. destruct (Qlt_le_dec _ _) as [Hlt | Hge].
  - rewrite Hx in Hlt |- *. unfold Qlt, Qmult, inject_Z in Hlt. cbn [Qnum Qden] in Hlt.
    replace (n * 32767 <? c * Zpos d) with true by (symmetry; apply Z.ltb_lt; lia).
    unfold Qfloor, Qmult. cbn [Qnum Qden]. now rewrite Pos.mul_1_r.
  - rewrite Hx in Hge. unfold Qle, Qmult, inject_Z in Hge. cbn [Qnum Qden] in Hge.
    replace (n * 32767 <? c * Zpos d) with false by (symmetry; apply Z.ltb_ge; lia).
    unfold Qfloor, inject_Z. cbn [Qnum Qden]. now rewrite Z.div_1_r.
Qed.

Lemma inline_spec_finite (s : bool) (m : positive) (e : Z) :
  Inline.spec (S754_finite s m e) = Inline.finite s m e.
Proof.
  unfold Inline.spec, Inline.finite, Inline.below. cbv zeta.
  destruct (Z.le_gt_cases 0 e) as [He | He].
  - rewrite (clamped_floor _ (Zpos m * 2 ^ e) 1).
    + rewrite Z.min_r by lia. rewrite Z.sub_0_r. change (2 ^ (- 0)) with 1.
      rewrite Z.shiftl_mul_pow2 by lia. rewrite Pos2Z.inj_mul, Z.div_1_r.
      replace (Zpos m * 32767 * 2 ^ e) with (Zpos m * 2 ^ e * 32767) by ring.
      now destruct (_ <? _).
    + rewrite sample_value_nonneg_exp by assumption.
      assert (0 < 2 ^ e) by (apply Z.pow_pos_nonneg; lia).
      unfold Qabs, inject_Z, Qeq. cbn [Qnum Qden].
      destruct s; cbn [cond_Zopp]; lia.
  - destruct e as [| p | p]; try lia.
    rewrite (clamped_floor _ (Zpos m) (2 ^ p)) by apply Qabs_sample_value_neg_exp.
    rewrite Z.min_l by lia. rewrite Z.sub_diag, Z.mul_1_r.
    rewrite Z.shiftl_div_pow2 by lia.
    rewrite Pos2Z.inj_mul, Pos2Z.inj_pow. cbn [Z.opp].
    now destruct (_ <? _).
Qed.

Lemma pcmData_sample_spec (f : spec_float) :
  valid_binary 24 128 f = true ->
  Pcm.pcmData_sample (JS.of_float32 f) = Inline.spec f.
Proof.
  destruct f as [s | s | | s m e]; intro Hv.
  - now destruct s.
  - now destruct s.
  - reflexivity.
  - rewrite inline_spec_finite. now apply pcmData_sample_inline.
Qed.

Lemma inline_finite_range (s : bool) (m : positive) (e : Z) :
  -32768 <= Inline.finite s m e <= 32767.
Proof.
  unfold Inline.finite. destruct (Inline.below _ _ _) eqn:Hb.
  - pose proof (below_shiftl _ _ _ Hb) as H.
    destruct s; cbn [cond_Zopp Pcm.scale] in *; lia.
  - destruct s; cbn; lia.
Qed.

Lemma inline_spec_range (f : spec_float) : -32768 <= Inline.spec f <= 32767.
Proof.
  destruct f as [s | s | | s m e].
  - cbn. lia.
  - destruct s; cbn; lia.
  - cbn. lia.
  - rewrite inline_spec_finite. apply inline_finite_range.
Qed.

(** X6: on a block of binary32 samples the audio callback of the recorder
    produces, sample after sample, the two bytes, low byte first, of the
    sample multiplied by 32767, clamped to [-32768, 32767] and rounded
    towards zero (NaN gives 0); that value is in the signed 16-bit range, so
    that the conversion to [Int16Array] never wraps around and the bytes read
    back to it; and there are twice as many bytes as samples. *)
Theorem inline_conversion_clamps_and_serializes (block : list spec_float) :
  Forall (fun f => valid_binary 24 128 f = true) block ->
  Pcm.onaudioprocess_bytes block
  = flat_map (fun f => Pcm.little_endian (Inline.spec f)) block /\
  Forall (fun f =>
            -32768 <= Inline.spec f <= 32767 /\
            Pcm.int16_of_bytes (Inline.spec f mod 256)
              ((Inline.spec f / 256) mod 256) = Inline.spec f) block /\
  List.length (Pcm.onaudioprocess_bytes block) = (2 * List.length block)%nat.
Proof.
  intro Hv. split; [| split].
  - unfold Pcm.onaudioprocess_bytes, Pcm.Uint8Array_of_buffer. cbv zeta.
    induction Hv as [| f block Hf _ IH]; cbn [map flat_map]; [reflexivity |].
    now rewrite IH, bytes_of_int16_little_endian, pcmData_sample_spec.
  - apply Forall_forall. intros f _. split.
    + apply inline_spec_range.
    + apply int16_of_little_endian, inline_spec_range.
  - unfold Pcm.onaudioprocess_bytes. cbv zeta.
    now rewrite length_Uint8Array_of_buffer, length_map.
Qed.

Lemma inline_conversion_witness :
  Pcm.onaudioprocess_bytes [Pcm.minus_one; Pcm.minus_half; Pcm.plus_half; S754_infinity true]
  = [1; 128; 1; 192; 255; 63; 0; 128].
Proof.
  assert (Hv : Forall (fun f => valid_binary 24 128 f = true)
                 [Pcm.minus_one; Pcm.minus_half; Pcm.plus_half; S754_infinity true])
    by (repeat constructor).
  destruct (inline_conversion_clamps_and_serializes _ Hv) as (Hbytes & _).
  rewrite Hbytes. reflexivity.
Defined.

Lemma finite_difference (s : bool) (m : positive) (e : Z) :
  0 <= Inline.finite s m e - Pcm.encode_finite s m e <= 1.
Proof.
  unfold Inline.finite, Pcm.encode_finite, Inline.below.
  destruct (Z.le_gt_cases 0 e) as [He | He].
  - rewrite below_one_nonneg_exp by assumption.
    rewrite Z.min_r by lia. rewrite Z.sub_0_r. change (2 ^ (- 0)) with 1.
    rewrite Z.shiftl_mul_pow2 by assumption.
    assert (0 < 2 ^ e) by (apply Z.pow_pos_nonneg; lia).
    rewrite Pos2Z.inj_mul.
    destruct (Z.ltb_spec (Zpos m * 32767 * 2 ^ e) (Zpos (Pcm.scale s) * 1));
      destruct s; cbn [cond_Zopp Pcm.scale] in *; nia.
  - destruct e as [| p | p]; try lia.
    rewrite below_one_neg_exp.
    rewrite Z.min_l by lia. rewrite Z.sub_diag, Z.mul_1_r.
    rewrite !Z.shiftl_div_pow2 by lia. cbn [Z.opp].
    rewrite !Pos2Z.inj_mul.
    assert (HP : 0 < 2 ^ Zpos p) by (apply Z.pow_pos_nonneg; lia).
    set (P := 2 ^ Zpos p) in *.
    destruct (Z.ltb_spec (Zpos m) P) as [Hm | Hm].
    + replace (Zpos m * 32767 <? Zpos (Pcm.scale s) * P) with true
        by (symmetry; apply Z.ltb_lt; destruct s; cbn [Pcm.scale]; nia).
      destruct s; cbn [cond_Zopp Pcm.scale]; [| lia].
      assert (Zpos m * 32767 / P <= Zpos m * 32768 / P)
        by (apply Z.div_le_mono; lia).
      assert (Zpos m * 32768 / P <= (Zpos m * 32767 + 1 * P) / P)
        by (apply Z.div_le_mono; lia).
      rewrite Z.div_add in * by lia. lia.
    + destruct (Z.ltb_spec (Zpos m * 32767) (Zpos (Pcm.scale s) * P)) as [Hb | Hb].
      * destruct s; cbn [cond_Zopp Pcm.scale] in *; [| nia].
        assert (32767 <= Zpos m * 32767 / P) by (apply Z.div_le_lower_bound; nia).
        assert (Zpos m * 32767 / P < 32768) by (apply Z.div_lt_upper_bound; nia).
        lia.
      * lia.
Qed.

(** X7: for every binary32 sample the value that the audio callback of the
    recorder stores and the value that [float32To16LEPCM] stores differ by at
    most one step of the 16-bit scale, and the callback's is never the
    lower one. *)
Theorem inline_conversion_within_one_step (f : spec_float) :
  valid_binary 24 128 f = true ->
  0 <= Pcm.pcmData_sample (JS.of_float32 f) - Pcm.pcm_sample (JS.of_float32 f) <= 1.
Proof.
  intro Hv. destruct f as [s | s | | s m e].
  - destruct s; cbn; lia.
  - destruct s; cbn; lia.
  - cbn. lia.
  - rewrite pcmData_sample_inline, pcm_sample_finite by assumption.
    apply finite_difference.
Qed.

Lemma inline_conversion_within_one_step_witness :
  0 <= Pcm.pcmData_sample (JS.of_float32 Pcm.minus_half)
       - Pcm.pcm_sample (JS.of_float32 Pcm.minus_half) <= 1.
Proof. apply inline_conversion_within_one_step. reflexivity. Defined.

(** ** The encoder keeps the order of the samples *)

Lemma sample_value_sign (s : bool) (m : positive) (e : Z) :
  (if s then Pcm.sample_value (S754_finite s m e) < 0
   else 0 < Pcm.sample_value (S754_finite s m e))%Q.
Proof.
  unfold Pcm.sample_value.
  assert (Hp : (0 < 2 ^ e)%Q) by (apply Qpower_0_lt; reflexivity).
  assert (Hm : (0 < inject_Z (Zpos m))%Q) by reflexivity.
  pose proof (Qmult_lt_0_compat _ _ Hm Hp) as H.
  destruct s; cbn [cond_Zopp]; [| exact H].
  change (inject_Z (- Zpos m)) with (- inject_Z (Zpos m))%Q. lra.
Qed.

Lemma clamp_scale_monotone (a b : Q) (c : positive) :
  (a <= b)%Q ->
  Qfloor ((if Qlt_le_dec a 1 then a else 1%Q) * inject_Z (Zpos c))
  <= Qfloor ((if Qlt_le_dec b 1 then b else 1%Q) * inject_Z (Zpos c)).
Proof.
  intro H. apply Qfloor_resp_le, Qmult_le_compat_r; [| discriminate].
  destruct (Qlt_le_dec a 1), (Qlt_le_dec b 1); lra.
Qed.

Lemma clamp_scale_nonneg (a : Q) (c : positive) :
  (0 <= a)%Q -> 0 <= Qfloor ((if Qlt_le_dec a 1 then a else 1%Q) * inject_Z (Zpos c)).
Proof.
  intro H. change 0 with (Qfloor 0). apply Qfloor_resp_le.
  apply Qmult_le_0_compat; [| discriminate].
  destruct (Qlt_le_dec a 1); lra.
Qed.

Lemma encode_spec_monotone (f1 f2 : spec_float) :
  Pcm.is_finite f1 = true -> Pcm.is_finite f2 = true ->
  (Pcm.sample_value f1 <= Pcm.sample_value f2)%Q ->
  Pcm.encode_spec f1 <= Pcm.encode_spec f2.
Proof.
  intros H1 H2 Hle.
  destruct f1 as [s1 | s1 | | s1 m1 e1]; try discriminate;
    destruct f2 as [s2 | s2 | | s2 m2 e2]; try discriminate;
    try pose proof (sample_value_sign s1 m1 e1) as Hs1;
    try pose proof (sample_value_sign s2 m2 e2) as Hs2;
    unfold Pcm.encode_spec; cbv zeta.
  - change (Pcm.sample_value (S754_zero s1)) with 0%Q in Hle.
    destruct s2; cbv iota in Hs2; [lra |]. cbn [cond_Zopp].
    apply clamp_scale_nonneg, Qabs_nonneg.
  - change (Pcm.sample_value (S754_zero s2)) with 0%Q in Hle.
    destruct s1; cbv iota in Hs1; [| lra]. cbn [cond_Zopp].
    pose proof (clamp_scale_nonneg (Qabs (Pcm.sample_value (S754_finite true m1 e1)))
                  (Pcm.scale true) (Qabs_nonneg _)).
    lia.
  - set (v1 := Pcm.sample_value (S754_finite s1 m1 e1)) in *.
    set (v2 := Pcm.sample_value (S754_finite s2 m2 e2)) in *.
    destruct s1, s2; cbv iota in Hs1, Hs2; cbn [cond_Zopp].
    + apply Z.opp_le_mono. rewrite !Z.opp_involutive.
      apply clamp_scale_monotone.
      rewrite (Qabs_neg v1), (Qabs_neg v2) by lra. lra.
    + pose proof (clamp_scale_nonneg (Qabs v1) (Pcm.scale true) (Qabs_nonneg _)).
      pose proof (clamp_scale_nonneg (Qabs v2) (Pcm.scale false) (Qabs_nonneg _)).
      lia.
    + lra.
    + apply clamp_scale_monotone.
      rewrite (Qabs_pos v1), (Qabs_pos v2) by lra. exact Hle.
Qed.

(** X8: [float32To16LEPCM] keeps the order of the samples: of two finite
    binary32 samples, the one that is not the greater is stored as a 16-bit
    value that is not the greater; in particular a negative sample is never
    stored as a positive value, nor a positive one as a negative value. *)
Theorem encoder_keeps_order (f1 f2 : spec_float) :
  valid_binary 24 128 f1 = true -> valid_binary 24 128 f2 = true ->
  Pcm.is_finite f1 = true -> Pcm.is_finite f2 = true ->
  (Pcm.sample_value f1 <= Pcm.sample_value f2)%Q ->
  Pcm.pcm_sample (JS.of_float32 f1) <= Pcm.pcm_sample (JS.of_float32 f2).
Proof.
  intros Hv1 Hv2 H1 H2 Hle.
  rewrite !pcm_sample_spec by assumption.
  now apply encode_spec_monotone.
Qed.

Lemma encoder_keeps_order_witness :
  Pcm.pcm_sample (JS.of_float32 Pcm.minus_half)
  <= Pcm.pcm_sample (JS.of_float32 Pcm.plus_half).
Proof.
  apply encoder_keeps_order; try reflexivity.
  unfold Qle. cbn. lia.
Defined.


(** * The statistics of the transcript page *)

Local Open Scope nat_scope.

Lemma split_one (w : string) : no_space w = true -> split Ascii.Space w = [w].
Proof.
  induction w as [| c w IH]; cbn [no_space split]; [reflexivity |].
  intro H. apply andb_prop in H as [Hc Hw].
  apply negb_true_iff in Hc. rewrite Hc, (IH Hw). reflexivity.
Qed.

Lemma split_cons (w rest : string) :
  no_space w = true ->
  split Ascii.Space (w ++ String Ascii.Space rest) = w :: split Ascii.Space rest.
Proof.
  induction w as [| c w IH]; cbn [no_space split append].
  - reflexivity.
  - intro H. apply andb_prop in H as [Hc Hw].
    apply negb_true_iff in Hc. rewrite Hc, (IH Hw). reflexivity.
Qed.

(** Splitting what was joined gives the words back, when no word has a
    space in it and there is at least one word. *)
Lemma split_join (ws : list string) :
  ws <> [] -> Forall (fun w => no_space w = true) ws ->
  split Ascii.Space (join " " ws) = ws.
Proof.
  unfold join. intros Hne H. induction H as [| w ws Hw Hws IH]; [congruence |].
  destruct ws as [| w' ws].
  - now apply split_one.
  - change (String.concat " " (w :: w' :: ws))
      with (w ++ String Ascii.Space (String.concat " " (w' :: ws)))%string.
    rewrite split_cons by assumption. f_equal. apply IH. discriminate.
Qed.

Lemma fold_split_length (segs : list TranscriptSegment.t) (n : nat) :
  fold_left (fun acc segment =>
               acc + List.length (split Ascii.Space (TranscriptSegment.text segment)))
    segs n
  = n + List.length
          (flat_map (fun segment => split Ascii.Space (TranscriptSegment.text segment))
             segs).
Proof.
  revert n. induction segs as [| seg segs IH]; intro n;
    cbn [fold_left flat_map List.length].
  - lia.
  - rewrite IH, length_app. lia.
Qed.

Lemma totalWords_counted (s : Store) : totalWords s = List.length (counted s).
Proof.
  unfold totalWords, counted. rewrite length_app, fold_split_length. reflexivity.
Qed.

(** X9: after any events handled one after the other from the initial
    state (each handler has completed, or waits for a translation that is
    never settled, before the next event is delivered), and when no final
    word of the events has a space in it, the word count of the statistics
    counts words that were accumulated: splitting the text
    of a segment at the spaces gives back the words that were joined, each a
    final word of an event of the segment's turn, and the words of the open
    turn are counted as they are. *)
Theorem word_count_counts_final_words
    (env : Env) (lang : string) (events : list TurnEventData.t) :
  (forall data w, In data events -> In w (final_texts data) -> no_space w = true) ->
  let s := handleAll env events (initial lang) in
  totalWords s = List.length (counted s) /\
  (forall seg, In seg (transcript s) ->
     TranscriptSegment.text seg
     = join " " (split Ascii.Space (TranscriptSegment.text seg)) /\
     forall w, In w (split Ascii.Space (TranscriptSegment.text seg)) ->
       from_turn events (TranscriptSegment.turn seg) w) /\
  (forall w, In w (counted s) ->
     exists data, In data events /\ In w (final_texts data)).
Proof.
  intros Hns. cbv zeta.
  assert (H : provenance ([] ++ events) (handleAll env events (initial lang))).
  { apply handleAll_provenance. split; [intros w [] | constructor]. }
  cbn [app] in H. destruct H as [Hopen Hsegs]. rewrite Forall_forall in Hsegs.
  assert (Hseg : forall seg, In seg (transcript (handleAll env events (initial lang))) ->
            TranscriptSegment.text seg
            = join " " (split Ascii.Space (TranscriptSegment.text seg)) /\
            forall w, In w (split Ascii.Space (TranscriptSegment.text seg)) ->
              from_turn events (TranscriptSegment.turn seg) w).
  { intros seg Hin. destruct (Hsegs seg Hin) as (ws & Htext & Hne & Hws).
    assert (Hsplit : split Ascii.Space (TranscriptSegment.text seg) = ws).
    { rewrite Htext. apply split_join; [assumption |].
      apply Forall_forall. intros w Hw.
      destruct (Hws w Hw) as (data & Hd & _ & Hf). now apply (Hns data). }
    rewrite Hsplit. split; assumption. }
  split; [apply totalWords_counted | split; [exact Hseg |]].
  intros w Hw. unfold counted in Hw. apply in_app_or in Hw as [Hw | Hw].
  - apply in_flat_map in Hw as (seg & Hin & Hw).
    destruct (proj2 (Hseg seg Hin) w Hw) as (data & Hd & _ & Hf). eauto.
  - destruct (Hopen w Hw) as (data & Hd & _ & Hf). eauto.
Qed.

Lemma word_count_witness :
  totalWords (handleAll echo four_turns (initial "es")) = 4.
Proof.
  assert (Hns : forall data w, In data four_turns -> In w (final_texts data) ->
                               no_space w = true).
  { intros data w Hd Hw. cbn in Hd.
    destruct Hd as [<- | [<- | [<- | [<- | []]]]]; cbn in Hw;
      destruct Hw as [<- | []]; reflexivity. }
  destruct (word_count_counts_final_words echo "es" four_turns Hns) as [H _].
  rewrite H. reflexivity.
Defined.

(** * Clearing the transcript while a translation is awaited *)

Section Clearing.

Variable now : Store -> Z.











End Clearing.



(** * No final word is lost *)

Section Kept.

Variable env : Env.
Hypothesis Hsettles : settles env.

Lemma finish_settled (s : Store) (text : string) (i : Z) (avg : JS.number)
    (ws : list Word.t) :
  (0 <= i < colors_length)%Z ->
  exists seg,
    finish env s text i avg ws = (with_segment s seg, Fulfilled tt) /\
    TranscriptSegment.turn seg = currentTurnOrder s /\
    TranscriptSegment.text seg = text.
Proof.
  intro Hi. unfold finish.
  destruct (color_at_in_range i Hi) as [c Hc]. rewrite Hc.
  destruct (language s =? "en")%string.
  - eexists. repeat split.
  - destruct (settles_fetch env s (translate_request text s) Hsettles) as [o Ho].
    rewrite Ho. eexists. repeat split.
Qed.

Lemma kept_pushed (s s' : Store) (seg : TranscriptSegment.t) (order : Z) (w : string) :
  transcript s' = (transcript s ++ [seg])%list ->
  TranscriptSegment.turn seg = currentTurnOrder s ->
  TranscriptSegment.text seg = join " " (currentTurnWords s) ->
  kept s order w -> kept s' order w.
Proof.
  intros Htr Hturn Htext [[Ho Hw] | (seg' & ws & Hin & Ht & Hx & Hw)]; right.
  - exists seg, (currentTurnWords s). rewrite Htr.
    repeat split; [apply in_or_app; right; now left | congruence | assumption | assumption].
  - exists seg', ws. rewrite Htr.
    repeat split; [apply in_or_app; now left | assumption | assumption | assumption].
Qed.

Lemma close_step_kept (data : TurnEventData.t) (s : Store) :
  color_in_range s ->
  forall order w, kept s order w -> kept (fst (close_step env data s)) order w.
Proof.
  intros Hs order w Hk. unfold close_step.
  destruct (TurnEventData.end_of_turn data && _); [| exact Hk].
  destruct (finish_settled s (join " " (currentTurnWords s)) (colorIndex s)
              (avgConfidence (event_words data)) (event_words data) Hs)
    as (seg & Hf & Hturn & Htext).
  rewrite Hf. cbn [fst]. now apply (kept_pushed s _ seg).
Qed.

Lemma step_kept (data : TurnEventData.t) (s : Store) :
  color_in_range s ->
  (forall order w, kept s order w -> kept (fst (step env data s)) order w) /\
  (forall w, In w (final_texts data) ->
     kept (fst (step env data s)) (TurnEventData.turn_order data) w).
Proof.
  intro Hs. unfold step.
  assert (Hrest : forall s1,
            color_in_range s1 ->
            currentTurnOrder s1 = TurnEventData.turn_order data ->
            (forall order w, kept s order w -> kept s1 order w) ->
            let s2 := with_words s1 (accumulate (currentTurnWords s1) (event_words data)) in
            (forall order w, kept s order w -> kept (fst (close_step env data s2)) order w) /\
            (forall w, In w (final_texts data) ->
               kept (fst (close_step env data s2)) (TurnEventData.turn_order data) w)).
  { intros s1 H1 Ho Hk. cbv zeta. split.
    - intros order w Hw. apply close_step_kept; [exact H1 |].
      destruct (Hk order w Hw) as [[Ho' Hin] | Hseg]; [left | right; exact Hseg].
      split; [exact Ho' | now apply accumulate_keeps].
    - intros w Hw. apply close_step_kept; [exact H1 |].
      left. split; [exact Ho |].
      destruct (final_texts_In data w Hw) as (word & Hin & Hf & <-).
      now apply accumulate_has_final. }
  unfold boundary_step.
  destruct (Z.eqb_spec (TurnEventData.turn_order data) (currentTurnOrder s)) as [Heq | Hneq].
  - apply Hrest; auto.
  - destruct (0 <? List.length (currentTurnWords s))%nat eqn:Hlen.
    + destruct (finish_settled s (join " " (currentTurnWords s))
                  (Z.rem (colorIndex s - 1 + colors_length) colors_length)
                  (avgConfidence (event_words data)) [] (rem_pred_in_range _ Hs))
        as (seg & Hf & Hturn & Htext).
      rewrite Hf. apply Hrest.
      * unfold color_in_range. cbn. now apply rem_succ_in_range.
      * reflexivity.
      * intros order w Hw. now apply (kept_pushed s _ seg).
    + apply Hrest.
      * unfold color_in_range. cbn. now apply rem_succ_in_range.
      * reflexivity.
      * intros order w [[Ho Hin] | Hseg]; [| right; exact Hseg].
        apply Nat.ltb_ge in Hlen. destruct (currentTurnWords s); [destruct Hin | cbn in Hlen; lia].
Qed.

Lemma handleAll_kept (events seen : list TurnEventData.t) (s : Store) :
  color_in_range s ->
  (forall data w, In data seen -> In w (final_texts data) ->
     kept s (TurnEventData.turn_order data) w) ->
  forall data w, In data (seen ++ events) -> In w (final_texts data) ->
    kept (handleAll env events s) (TurnEventData.turn_order data) w.
Proof.
  revert seen s. induction events as [| e rest IH]; intros seen s Hs Hk data w Hin Hw.
  - rewrite app_nil_r in Hin. now apply Hk.
  - cbn [handleAll]. rewrite run_handleTurnEvent.
    destruct (step_kept e s Hs) as [Hold Hnew].
    apply (IH (seen ++ [e])%list).
    + now apply (step_color_in_range env e s "").
    + intros d x Hd Hx. apply in_app_or in Hd as [Hd | [<- | []]].
      * apply Hold. now apply Hk.
      * now apply Hnew.
    + now rewrite <- app_assoc.
    + exact Hw.
Qed.

End Kept.

(** X11: when every translation request is settled, no final word is lost.
    After any events handled one after the other from the initial state,
    each final word of each event is among the words of the open turn, if
    that is the turn of the event, or among the words joined in the text of
    a segment that carries the turn number of the event. *)
Theorem no_final_word_is_lost
    (env : Env) (lang : string) (events : list TurnEventData.t) :
  settles env ->
  forall data w, In data events -> In w (final_texts data) ->
    kept (handleAll env events (initial lang)) (TurnEventData.turn_order data) w.
Proof.
  intros Hsettles data w Hin Hw.
  apply (handleAll_kept env Hsettles events []).
  - unfold color_in_range, colors_length. cbn. lia.
  - intros d x [].
  - exact Hin.
  - exact Hw.
Qed.

Lemma no_final_word_is_lost_witness :
  kept (handleAll echo four_turns (initial "es")) 1 "C".
Proof.
  apply (no_final_word_is_lost echo "es" four_turns echo_settles
           (event 1 false [final_word "C"]) "C").
  - cbn. auto.
  - cbn. auto.
Defined.

(** * The inline conversion keeps the order of the samples *)

Local Open Scope Z_scope.

Lemma inline_clamp_monotone (a b : Q) (c : positive) :
  (a <= b)%Q ->
  Qfloor (if Qlt_le_dec (a * 32767) (inject_Z (Zpos c)) then (a * 32767)%Q
          else inject_Z (Zpos c))
  <= Qfloor (if Qlt_le_dec (b * 32767) (inject_Z (Zpos c)) then (b * 32767)%Q
             else inject_Z (Zpos c)).
Proof.
  intro H. apply Qfloor_resp_le.
  destruct (Qlt_le_dec (a * 32767) _), (Qlt_le_dec (b * 32767) _); lra.
Qed.

Lemma inline_clamp_nonneg (a : Q) (c : positive) :
  (0 <= a)%Q ->
  0 <= Qfloor (if Qlt_le_dec (a * 32767) (inject_Z (Zpos c)) then (a * 32767)%Q
               else inject_Z (Zpos c)).
Proof.
  intro H. change 0 with (Qfloor 0). apply Qfloor_resp_le.
  assert (0 <= inject_Z (Zpos c))%Q by discriminate.
  destruct (Qlt_le_dec (a * 32767) _); lra.
Qed.

Lemma inline_spec_monotone (f1 f2 : spec_float) :
  Pcm.is_finite f1 = true -> Pcm.is_finite f2 = true ->
  (Pcm.sample_value f1 <= Pcm.sample_value f2)%Q ->
  Inline.spec f1 <= Inline.spec f2.
Proof.
  intros H1 H2 Hle.
  destruct f1 as [s1 | s1 | | s1 m1 e1]; try discriminate;
    destruct f2 as [s2 | s2 | | s2 m2 e2]; try discriminate;
    try pose proof (sample_value_sign s1 m1 e1) as Hs1;
    try pose proof (sample_value_sign s2 m2 e2) as Hs2;
    unfold Inline.spec; cbv zeta.
  - change (Pcm.sample_value (S754_zero s1)) with 0%Q in Hle.
    destruct s2; cbv iota in Hs2; [lra |]. cbn [cond_Zopp].
    apply inline_clamp_nonneg, Qabs_nonneg.
  - change (Pcm.sample_value (S754_zero s2)) with 0%Q in Hle.
    destruct s1; cbv iota in Hs1; [| lra]. cbn [cond_Zopp].
    pose proof (inline_clamp_nonneg (Qabs (Pcm.sample_value (S754_finite true m1 e1)))
                  (Pcm.scale true) (Qabs_nonneg _)).
    lia.
  - set (v1 := Pcm.sample_value (S754_finite s1 m1 e1)) in *.
    set (v2 := Pcm.sample_value (S754_finite s2 m2 e2)) in *.
    destruct s1, s2; cbv iota in Hs1, Hs2; cbn [cond_Zopp].
    + apply Z.opp_le_mono. rewrite !Z.opp_involutive.
      apply inline_clamp_monotone.
      rewrite (Qabs_neg v1), (Qabs_neg v2) by lra. lra.
    + pose proof (inline_clamp_nonneg (Qabs v1) (Pcm.scale true) (Qabs_nonneg _)).
      pose proof (inline_clamp_nonneg (Qabs v2) (Pcm.scale false) (Qabs_nonneg _)).
      lia.
    + lra.
    + apply inline_clamp_monotone.
      rewrite (Qabs_pos v1), (Qabs_pos v2) by lra. exact Hle.
Qed.

(** X12: the audio callback of the recorder keeps the order of the samples
    as well: of two finite binary32 samples, the one that is not the greater
    is stored as a 16-bit value that is not the greater. *)
Theorem inline_conversion_keeps_order (f1 f2 : spec_float) :
  valid_binary 24 128 f1 = true -> valid_binary 24 128 f2 = true ->
  Pcm.is_finite f1 = true -> Pcm.is_finite f2 = true ->
  (Pcm.sample_value f1 <= Pcm.sample_value f2)%Q ->
  Pcm.pcmData_sample (JS.of_float32 f1) <= Pcm.pcmData_sample (JS.of_float32 f2).
Proof.
  intros Hv1 Hv2 H1 H2 Hle.
  rewrite !pcmData_sample_spec by assumption.
  now apply inline_spec_monotone.
Qed.

Lemma inline_conversion_keeps_order_witness :
  Pcm.pcmData_sample (JS.of_float32 Pcm.minus_one)
  <= Pcm.pcmData_sample (JS.of_float32 Pcm.minus_half).
Proof.
  apply inline_conversion_keeps_order; try reflexivity.
  unfold Qle. cbn. lia.
Defined.

(** * The recording clock *)

Section Clock.

Import Ascii Recorder.
Local Open Scope string_scope.

Lemma copies_zero_digits (count : nat) (d : Decimal.uint) :
  exists d', (copies count "0"%char ++ DecimalString.NilEmpty.string_of_uint d)%string
             = DecimalString.NilEmpty.string_of_uint d' /\
             N.of_uint d' = N.of_uint d.
Proof.
  induction count as [| count [d' [Hs Hn]]].
  - now exists d.
  - exists (Decimal.D0 d'). cbn. rewrite Hs. split; [reflexivity | exact Hn].
Qed.

(** A padded number is still a string of digits that reads as the
    number. *)
Lemma padStart_digits (n : N) :
  exists d, padStart 2 "0"%char (toString n) = DecimalString.NilEmpty.string_of_uint d /\
            N.of_uint d = n.
Proof.
  unfold padStart, toString.
  destruct (copies_zero_digits
              (2 - String.length (DecimalString.NilEmpty.string_of_uint (N.to_uint n)))
              (N.to_uint n)) as [d [Hs Hn]].
  exists d. split; [exact Hs |]. rewrite Hn. apply DecimalN.Unsigned.of_to.
Qed.

Lemma digits_colon (u u' : Decimal.uint) (rest rest' : string) :
  DecimalString.NilEmpty.string_of_uint u ++ String ":"%char rest
  = DecimalString.NilEmpty.string_of_uint u' ++ String ":"%char rest' ->
  u = u' /\ rest = rest'.
Proof.
  revert u'. induction u as [| u IH | u IH | u IH | u IH | u IH | u IH | u IH | u IH | u IH | u IH];
    intros [| u' | u' | u' | u' | u' | u' | u' | u' | u' | u']; cbn; intro H;
    try discriminate;
    try (injection H as H; destruct (IH _ H) as [-> ->]; split; reflexivity).
  injection H as ->. split; reflexivity.
Qed.

Lemma length_append (a b : string) :
  String.length (a ++ b) = (String.length a + String.length b)%nat.
Proof. induction a as [| c a IH]; cbn; [reflexivity | now rewrite IH]. Qed.

Lemma length_copies (count : nat) (c : ascii) : String.length (copies count c) = count.
Proof. induction count as [| count IH]; cbn; [reflexivity | now rewrite IH]. Qed.

Lemma length_padStart (targetLength : nat) (c : ascii) (str : string) :
  String.length (padStart targetLength c str) = Nat.max targetLength (String.length str).
Proof. unfold padStart. rewrite length_append, length_copies. lia. Qed.

(** Below one hundred there are at most two digits. *)
Lemma length_toString_small (n : N) :
  (n < 100)%N -> (String.length (toString n) <= 2)%nat.
Proof.
  intro H.
  assert (Hall : forallb (fun k => (String.length (toString (N.of_nat k)) <=? 2)%nat)
                   (seq 0 100) = true) by (vm_compute; reflexivity).
  rewrite forallb_forall in Hall.
  specialize (Hall (N.to_nat n)). rewrite Nnat.N2Nat.id in Hall.
  apply Nat.leb_le, Hall, in_seq. lia.
Qed.

Lemma formattedTime_digits (t : N) :
  exists mins secs,
    formattedTime t
    = DecimalString.NilEmpty.string_of_uint mins ++ ":"
      ++ DecimalString.NilEmpty.string_of_uint secs /\
    N.of_uint mins = (t / 60)%N /\
    N.of_uint secs = (t mod 60)%N.
Proof.
  unfold formattedTime. cbv zeta.
  destruct (padStart_digits (t / 60)) as [mins [Hm Hmn]].
  destruct (padStart_digits (t mod 60)) as [secs [Hs Hsn]].
  exists mins, secs. now rewrite Hm, Hs.
Qed.

(** X13: the clock shows the minutes, a colon and the seconds, both in
    decimal digits that read as the whole minutes and the remaining seconds
    of the recording time. The seconds take exactly two digits and the
    minutes at least two; the minutes are not reduced to hours, and below one
    hundred minutes the text has five characters. *)
Theorem formattedTime_shape (t : N) :
  exists mins secs,
    formattedTime t
    = DecimalString.NilEmpty.string_of_uint mins ++ ":"
      ++ DecimalString.NilEmpty.string_of_uint secs /\
    N.of_uint mins = (t / 60)%N /\
    N.of_uint secs = (t mod 60)%N /\
    String.length (DecimalString.NilEmpty.string_of_uint secs) = 2%nat /\
    (2 <= String.length (DecimalString.NilEmpty.string_of_uint mins))%nat /\
    ((t < 6000)%N -> String.length (formattedTime t) = 5%nat).
Proof.
  unfold formattedTime. cbv zeta.
  destruct (padStart_digits (t / 60)) as [mins [Hm Hmn]].
  destruct (padStart_digits (t mod 60)) as [secs [Hs Hsn]].
  assert (Hsecs : String.length (padStart 2 "0"%char (toString (t mod 60))) = 2%nat).
  { rewrite length_padStart.
    assert ((t mod 60 < 100)%N) by (pose proof (N.mod_lt t 60); lia).
    pose proof (length_toString_small _ H). lia. }
  exists mins, secs. rewrite <- Hm, <- Hs.
  repeat split; try assumption.
  - rewrite length_padStart. lia.
  - intro Ht. rewrite !length_append, Hsecs, length_padStart.
    assert ((t / 60 < 100)%N) by (apply N.Div0.div_lt_upper_bound; lia).
    pose proof (length_toString_small _ H).
    change (String.length ":") with 1%nat. lia.
Qed.

(** X14: two different recording times are never shown as the same text. *)
Theorem formattedTime_tells_times_apart (t1 t2 : N) :
  t1 <> t2 -> formattedTime t1 <> formattedTime t2.
Proof.
  intros Hne Heq. apply Hne.
  destruct (formattedTime_digits t1) as (u1 & v1 & H1 & Hu1 & Hv1).
  destruct (formattedTime_digits t2) as (u2 & v2 & H2 & Hu2 & Hv2).
  rewrite H1, H2 in Heq. cbn [append] in Heq.
  apply digits_colon in Heq as [-> Hv].
  assert (Hsome : Some v1 = Some v2)
    by (rewrite <- !DecimalString.NilEmpty.usu; now rewrite Hv).
  injection Hsome as ->.
  rewrite (N.div_mod t1 60), (N.div_mod t2 60) by lia. congruence.
Qed.

Lemma formattedTime_tells_times_apart_witness :
  formattedTime 59 <> formattedTime 60.
Proof. apply formattedTime_tells_times_apart. discriminate. Defined.

End Clock.

(** * The transcription socket *)

Section Socket.

Import Transcription.












(** A session: the socket is set up and opens, a buffer is sent, the
    recorder stops, a late buffer is dropped, the connection closes. *)
Example one_session :
  Transcription.handleEvents
    [Setup true; Audio [Pcm.plus_half]; Opened 0; Audio [Pcm.minus_one];
     Close; Audio [Pcm.plus_half]; Closed 0]
    Transcription.unconnected
  = {| sockets := [{| readyState := CLOSED; sent := [audio [1; 128]; stop] |}];
       websocket := None; isTranscribing := false |}.
Proof. reflexivity. Qed.

End Socket.

(** * A final word repeated within a turn *)

Local Open Scope string_scope.





Section OneTurn.

Variable env : Env.
Hypothesis Hsettles : settles env.
Variable order : Z.






End OneTurn.






(** The same turn closed by the arrival of an event of turn 4. *)
Example C4_example :
  map TranscriptSegment.text
    (transcript
       (handleAll echo
          [event 3 false [final_word "hello"; final_word "world"];
           event 3 false [final_word "hello"];
           event 3 false [final_word "world"; final_word "hello"];
           event 4 false [final_word "next"]]
          (initial "es"))) = ["hello world"].
Proof. reflexivity. Qed.

